(** * luminara-cookie-jar: the interception adapter and the cookie engine

    A shallow embedding of [src/index.js] (the plugin: URL resolution,
    request-side merge of the [Cookie] header, response-side ingestion of
    [Set-Cookie] values, jar sharing by reference) together with a model of
    the cookie jar the plugin drives. *)

From Stdlib Require Import String Ascii ZArith List Lia Bool Sorting.Sorted.
From stdpp Require Import gmap strings list fin_maps.

#[local] Set Warnings "-clear-no-such-hyp".

Local Open Scope string_scope.

(** ** JavaScript strings as seen by the plugin *)

Module Js.

(** [s] is truthy in JavaScript iff it is not the empty string. *)
Definition truthy (s : string) : bool :=
  match s with
  | EmptyString => false
  | String _ _ => true
  end.

(** [o || d] where [o] is a string-valued property that may be
    [undefined]/[null] ([None]) and [d] is a string. *)
Definition or_str (o : option string) (d : string) : string :=
  match o with
  | Some s => if truthy s then s else d
  | None => d
  end.

(** [String.prototype.startsWith]. *)
Definition startsWith (s p : string) : bool := String.prefix p s.

(** [s.replace(/\/$/, '')]: without the [m] flag [$] matches only at the
    very end of the input, so at most the final character is removed. *)
Fixpoint replaceTrailingSlash (s : string) : string :=
  match s with
  | EmptyString => EmptyString
  | String c EmptyString => if Ascii.eqb c "/" then EmptyString else s
  | String c r => String c (replaceTrailingSlash r)
  end.

(** [s.replace(/^\//, '')]: at most the first character is removed. *)
Definition replaceLeadingSlash (s : string) : string :=
  match s with
  | String c r => if Ascii.eqb c "/" then r else s
  | EmptyString => EmptyString
  end.

End Js.

(** ** Results, the world and the effect monad of the hooks *)

(** An awaited call either yields a value or rejects/throws with a message. *)
Inductive result (A : Type) : Type :=
| Ok (a : A)
| Throw (message : string).
Arguments Ok {A} a.
Arguments Throw {A} message.

(** Jar objects live in a heap and are named by reference. *)
Definition loc := positive.

(** The part of tough-cookie's [CookieJar] that the plugin relies on:
    the constructor and the two methods the hooks call.  [setCookie]
    reports a failure through its callback ([Some message]). *)
Class CookieJar (J : Type) := {
  newCookieJar : J;
  getCookieString : string -> J -> J * result string;
  setCookie : string -> string -> J -> J * option string;
}.

Section Plugin.
Context {J : Type} `{CookieJar J}.

(** Everything a hook can touch: the jar objects and the console. *)
Record World := mkWorld {
  heap : gmap loc J;
  console : list string;
}.

Definition M (A : Type) : Type := World -> World * result A.

Definition ret {A} (a : A) : M A := fun w => (w, Ok a).

Definition throw {A} (message : string) : M A := fun w => (w, Throw message).

Definition bind {A B} (m : M A) (k : A -> M B) : M B := fun w =>
  match m w with
  | (w', Ok a) => k a w'
  | (w', Throw e) => (w', Throw e)
  end.

(** [try { body } catch (error) { handler(error.message) }] *)
Definition try_catch {A} (body : M A) (handler : string -> M A) : M A :=
  fun w =>
    match body w with
    | (w', Ok a) => (w', Ok a)
    | (w', Throw e) => handler e w'
    end.

(** [for (const x of xs) { body(x) }] *)
Fixpoint for_of {A} (xs : list A) (body : A -> M unit) : M unit :=
  match xs with
  | [] => ret tt
  | x :: rest => bind (body x) (fun _ => for_of rest body)
  end.

(** [new CookieJar()]: a fresh object, distinct from every live one. *)
Definition new_CookieJar : M loc := fun w =>
  let l := fresh (dom (heap w)) in
  (mkWorld (<[l := newCookieJar]> (heap w)) (console w), Ok l).

(** [await jar.getCookieString(url)] *)
Definition jar_getCookieString (jar : loc) (url : string) : M string :=
  fun w =>
    match heap w !! jar with
    | Some j =>
        let '(j', r) := getCookieString url j in
        (mkWorld (<[jar := j']> (heap w)) (console w), r)
    | None => (w, Throw "TypeError: jar is not an object")
    end.

(** [await new Promise((resolve, reject) =>
       jar.setCookie(value, url, (err) => err ? reject(err) : resolve()))] *)
Definition jar_setCookie (jar : loc) (value url : string) : M unit :=
  fun w =>
    match heap w !! jar with
    | Some j =>
        let '(j', err) := setCookie value url j in
        (mkWorld (<[jar := j']> (heap w)) (console w),
         match err with Some e => Throw e | None => Ok tt end)
    | None => (w, Throw "TypeError: jar is not an object")
    end.

(** [console.warn(message)] *)
Definition console_warn (message : string) : M unit := fun w =>
  (mkWorld (heap w) (console w ++ [message]), Ok tt).

End Plugin.

Arguments World J : clear implicits.
Arguments M J A : clear implicits.

(** ** Request, response and context objects *)

(** [context.req]; a missing property is [None]. *)
Record Request := mkRequest {
  req_url : option string;
  req_baseURL : option string;
  req_headers : option (gmap string string);
}.

(** [client.config] *)
Record ClientConfig := mkClientConfig {
  config_baseURL : option string;
}.

(** The client; [client_jar] is the property written by [onAttach]. *)
Record Client := mkClient {
  client_config : option ClientConfig;
  client_jar : option loc;
}.

(** The value found under a ['set-cookie'] key of a Node-like header bag. *)
Inductive HeaderValue :=
| HArray (values : list string)
| HString (value : string).

(** The three shapes of [res.headers] the code distinguishes: an object
    with a [getSetCookie] method (carrying what it returns), an object with
    only a [get] method (carrying what [get('set-cookie')] returns), and
    anything else. *)
Inductive RawHeaders :=
| HeadersGetSetCookie (all : list string)
| HeadersGet (single : option string)
| HeadersOther.

(** [res.raw] *)
Record RawResponse := mkRawResponse {
  raw_headers : option (gmap string HeaderValue);
}.

(** [context.res] *)
Record Response := mkResponse {
  res_headers : option RawHeaders;
  res_raw : option RawResponse;
  res_meta : option (gmap string HeaderValue);
}.

Record Context := mkContext {
  ctx_url : option string;
  ctx_req : option Request;
  ctx_client : option Client;
  ctx_res : option Response;
}.

(** [options] of [cookieJarPlugin]; [None] is an absent/[null] [jar]. *)
Record CookieJarPluginOptions := mkOptions {
  opt_jar : option loc;
}.

(** The plugin object: its hooks close over the reference [plugin_jar]. *)
Record Plugin := mkPlugin {
  plugin_name : string;
  plugin_jar : loc;
}.

(** Truthiness of a header value: arrays are always truthy. *)
Definition header_truthy (v : HeaderValue) : bool :=
  match v with
  | HArray _ => true
  | HString s => Js.truthy s
  end.

(** [a || b] on possibly missing header values. *)
Definition header_or (a b : option HeaderValue) : option HeaderValue :=
  match a with
  | Some v => if header_truthy v then a else b
  | None => b
  end.

(** ** src/index.js *)

(** [resolveAbsoluteUrl(context)] *)
Definition resolveAbsoluteUrl (context : Context) : string :=
  if Js.truthy (Js.or_str (ctx_url context) EmptyString) then
    Js.or_str (ctx_url context) EmptyString
  else
    let requestUrl := Js.or_str (ctx_req context ≫= req_url) EmptyString in
    if Js.startsWith requestUrl "http://" || Js.startsWith requestUrl "https://"
    then requestUrl
    else
      let base :=
        Js.or_str (ctx_req context ≫= req_baseURL)
          (Js.or_str ((ctx_client context ≫= client_config) ≫= config_baseURL) EmptyString) in
      if negb (Js.truthy base) then requestUrl
      else Js.replaceTrailingSlash base +:+ "/" +:+ Js.replaceLeadingSlash requestUrl.

(** [headers['Cookie'] || headers['cookie'] || ''] *)
Definition existingCookieOf (headers : gmap string string) : string :=
  Js.or_str (headers !! "Cookie") (Js.or_str (headers !! "cookie") EmptyString).

(** The deduplication filter: keep a value iff it was not seen before. *)
Fixpoint dedupe_from (seen : gset string) (values : list string) : list string :=
  match values with
  | [] => []
  | value :: rest =>
      if decide (value ∈ seen) then dedupe_from seen rest
      else value :: dedupe_from ({[value]} ∪ seen) rest
  end.

Definition deduplicate (values : list string) : list string :=
  dedupe_from ∅ values.

(** [res.raw?.headers?.['set-cookie'] || res.meta?.['set-cookie']] *)
Definition maybeArrayOf (res : Response) : option HeaderValue :=
  header_or ((res_raw res ≫= raw_headers) ≫= (.!! "set-cookie"))
            (res_meta res ≫= (.!! "set-cookie")).

(** The values gathered from a response before deduplication. *)
Definition collectSetCookieValues (res : Response) (rawHeaders : RawHeaders)
  : list string :=
  let setCookieValues :=
    match rawHeaders with
    | HeadersGetSetCookie all => all
    | HeadersGet single =>
        match single with
        | Some s => if Js.truthy s then [s] else []
        | None => []
        end
    | HeadersOther => []
    end in
  let maybeArray := maybeArrayOf res in
  match maybeArray with
  | Some (HArray values) => setCookieValues ++ values
  | _ => setCookieValues
  end.

Section Hooks.
Context {J : Type} `{CookieJar J}.

(** [cookieJarPlugin(options)]: [externalJar ?? new CookieJar()]. *)
Definition cookieJarPlugin (options : CookieJarPluginOptions) : M J Plugin :=
  match opt_jar options with
  | Some externalJar => ret (mkPlugin "cookie-jar" externalJar)
  | None => bind new_CookieJar (fun jar => ret (mkPlugin "cookie-jar" jar))
  end.

(** [onAttach(client)]: [client.jar = jar]. *)
Definition onAttach (p : Plugin) (client : Client) : Client :=
  mkClient (client_config client) (Some (plugin_jar p)).

(** [onRequest(context)]; the updated context is returned. *)
Definition onRequest (p : Plugin) (context : Context) : M J Context :=
  let url := resolveAbsoluteUrl context in
  match ctx_req context with
  | None => throw "TypeError: cannot read properties of undefined"
  | Some req =>
      let headers := default ∅ (req_headers req) in
      let existingCookie := existingCookieOf headers in
      bind (jar_getCookieString (plugin_jar p) url) (fun jarCookie =>
        if Js.truthy jarCookie then
          let mergedCookie :=
            if Js.truthy existingCookie
            then existingCookie +:+ "; " +:+ jarCookie
            else jarCookie in
          ret (mkContext (ctx_url context)
                 (Some (mkRequest (req_url req) (req_baseURL req)
                          (Some (<["Cookie" := mergedCookie]> headers))))
                 (ctx_client context) (ctx_res context))
        else ret context)
  end.

(** The body of the storing loop for one value. *)
Definition storeOne (jar : loc) (url value : string) : M J unit :=
  try_catch (jar_setCookie jar value url)
    (fun message =>
       console_warn ("[cookie-jar] Failed to store cookie: " +:+ message)).

(** [storeSetCookiesFromResponse(jar, url, res)] *)
Definition storeSetCookiesFromResponse (jar : loc) (url : string)
    (res : option Response) : M J unit :=
  match res with
  | None => ret tt
  | Some r =>
      match res_headers r with
      | None => ret tt
      | Some rawHeaders =>
          let setCookieValues :=
            deduplicate (collectSetCookieValues r rawHeaders) in
          for_of setCookieValues (storeOne jar url)
      end
  end.

(** [onResponse(context)] *)
Definition onResponse (p : Plugin) (context : Context) : M J unit :=
  let url := resolveAbsoluteUrl context in
  storeSetCookiesFromResponse (plugin_jar p) url (ctx_res context).

End Hooks.

(** ** The cookie engine behind the jar

    The jar itself is tough-cookie's [CookieJar], which is imported by
    [src/index.js] and is not part of the sources at hand.  The module below
    models it from the specification (sections 3 and 4): Cookie, Parser,
    Store, Matcher and the Jar facade.  Times are integer seconds. *)

Module Engine.

(** *** Character and string helpers used by the parser *)

(** Modelled from the spec: whitespace that the parser trims (the lexical
    layer of the absent cookie parser). *)
Definition is_ws (c : ascii) : bool :=
  let n := nat_of_ascii c in
  (n =? 32)%nat || (n =? 9)%nat || (n =? 10)%nat || (n =? 13)%nat.

(** Modelled from the spec: control characters, illegal in a cookie name
    (absent parser, section 3 [name]). *)
Definition is_ctl (c : ascii) : bool :=
  let n := nat_of_ascii c in (n <? 32)%nat || (n =? 127)%nat.

(** Modelled from the spec: ASCII lower-casing used to normalize domains
    and attribute names (absent parser). *)
Definition lower_ascii (c : ascii) : ascii :=
  let n := nat_of_ascii c in
  if (65 <=? n)%nat && (n <=? 90)%nat then ascii_of_nat (n + 32) else c.

(** Modelled from the spec: lower-casing of a whole string (domain and
    attribute-name normalization of the absent parser). *)
Fixpoint lowercase (s : string) : string :=
  match s with
  | EmptyString => EmptyString
  | String c r => String (lower_ascii c) (lowercase r)
  end.

(** Modelled from the spec: removal of leading whitespace (the absent parser
    "trims whitespace" around segments). *)
Fixpoint trim_left (s : string) : string :=
  match s with
  | String c r => if is_ws c then trim_left r else s
  | EmptyString => EmptyString
  end.

(** Modelled from the spec: removal of trailing whitespace (absent parser). *)
Fixpoint trim_right (s : string) : string :=
  match s with
  | EmptyString => EmptyString
  | String c r =>
      match trim_right r with
      | EmptyString => if is_ws c then EmptyString else String c EmptyString
      | r' => String c r'
      end
  end.

(** Modelled from the spec: whitespace trimming on both sides (absent
    parser). *)
Definition trim (s : string) : string := trim_right (trim_left s).

(** Modelled from the spec: the split "on the first" separator of the absent
    parser; [None] when the separator does not occur. *)
Fixpoint split_first (sep : ascii) (s : string) : option (string * string) :=
  match s with
  | EmptyString => None
  | String c r =>
      if Ascii.eqb c sep then Some (EmptyString, r)
      else match split_first sep r with
           | Some (a, b) => Some (String c a, b)
           | None => None
           end
  end.

(** Modelled from the spec: the split of the attribute list on every [;]
    (absent parser). *)
Fixpoint split_all (sep : ascii) (s : string) : list string :=
  match s with
  | EmptyString => [EmptyString]
  | String c r =>
      if Ascii.eqb c sep then EmptyString :: split_all sep r
      else match split_all sep r with
           | seg :: segs => String c seg :: segs
           | [] => [String c EmptyString]
           end
  end.

(** Modelled from the spec: the suffix test used by domain and path matching
    (absent matcher). *)
Fixpoint ends_with (s suffix : string) : bool :=
  if String.eqb s suffix then true
  else match s with
       | EmptyString => false
       | String _ r => ends_with r suffix
       end.

(** Modelled from the spec: the prefix test used by path matching (absent
    matcher). *)
Definition starts_with (s p : string) : bool := String.prefix p s.

(** Modelled from the spec: the scanner of the absent URL parser, the
    longest prefix free of characters satisfying [stop], and the rest. *)
Fixpoint take_until (stop : ascii -> bool) (s : string) : string * string :=
  match s with
  | EmptyString => (EmptyString, EmptyString)
  | String c r =>
      if stop c then (EmptyString, s)
      else let '(a, b) := take_until stop r in (String c a, b)
  end.

(** Modelled from the spec: a character class holding of every character
    (name and value legality of the absent parser). *)
Fixpoint forall_chars (p : ascii -> bool) (s : string) : bool :=
  match s with
  | EmptyString => true
  | String c r => p c && forall_chars p r
  end.

(** Modelled from the spec: a decimal digit of a Max-Age value (absent
    parser). *)
Definition digit_of (c : ascii) : option Z :=
  let n := nat_of_ascii c in
  if (48 <=? n)%nat && (n <=? 57)%nat then Some (Z.of_nat (n - 48)) else None.

(** Modelled from the spec: an unsigned decimal number (absent parser). *)
Fixpoint parse_digits (acc : Z) (s : string) : option Z :=
  match s with
  | EmptyString => Some acc
  | String c r =>
      match digit_of c with
      | Some d => parse_digits (10 * acc + d) r
      | None => None
      end
  end.

(** Modelled from the spec: "syntactically a signed integer" (the
    Max-Age value syntax of the absent parser). *)
Definition parse_int (s : string) : option Z :=
  match s with
  | EmptyString => None
  | String c r =>
      if Ascii.eqb c "-" then
        match r with
        | EmptyString => None
        | _ => Z.opp <$> parse_digits 0 r
        end
      else parse_digits 0 s
  end.

(** *** URLs *)

(** Modelled from the spec: the parsed request URL handed to the parser
    and the matcher (the [URL] type of the absent engine). *)
Record URL := mkURL {
  url_scheme : string;
  url_host : string;
  url_path : string;
}.

(** Modelled from the spec: the characters that end the authority of a URL
    (absent URL parser). *)
Definition is_authority_end (c : ascii) : bool :=
  Ascii.eqb c "/" || Ascii.eqb c "?" || Ascii.eqb c "#".

(** Modelled from the spec: the characters that end the path of a URL
    (absent URL parser). *)
Definition is_path_end (c : ascii) : bool :=
  Ascii.eqb c "?" || Ascii.eqb c "#".

(** Modelled from the spec: URL parsing of the absent engine; an empty or
    unparsable URL yields [None] (reported as [InvalidUrl]).  The shape
    accepted is [scheme://host[:port][/path][?query][#fragment]]. *)
Definition parse_url (s : string) : option URL :=
  match split_first ":" s with
  | None => None
  | Some (scheme, rest) =>
      match rest with
      | String "/" (String "/" after) =>
          let '(authority, tail) := take_until is_authority_end after in
          let hostport :=
            match split_first "@" authority with
            | Some (_, hp) => hp
            | None => authority
            end in
          let host :=
            match split_first ":" hostport with
            | Some (h, _) => h
            | None => hostport
            end in
          let '(path, _) := take_until is_path_end tail in
          if Js.truthy scheme && Js.truthy host then
            Some (mkURL (lowercase scheme) (lowercase host)
                    (if Js.truthy path then path else "/"))
          else None
      | _ => None
      end
  end.

(** Modelled from the spec: "secure transport" schemes (matcher rule 4 of
    the absent engine). *)
Definition secure_scheme (scheme : string) : bool :=
  String.eqb scheme "https" || String.eqb scheme "wss".

(** *** Cookie *)

(** Modelled from the spec: the [sameSite] attribute, "one of unset, Strict,
    Lax, None" (Cookie record of the absent engine). *)
Inductive SameSite := SameSiteUnset | SameSiteStrict | SameSiteLax | SameSiteNone.

(** Modelled from the spec: the [expiry] attribute, "session" or an absolute
    timestamp (Cookie record of the absent engine). *)
Inductive Expiry := Session | ExpiresAt (t : Z).

(** Modelled from the spec: the Cookie value object of section 3 (the
    absent engine's record).  [hostOnly] tells a host-only cookie from a
    domain cookie; the domain is stored without the leading dot. *)
Record Cookie := mkCookie {
  name : string;
  value : string;
  domain : string;
  hostOnly : bool;
  path : string;
  secure : bool;
  httpOnly : bool;
  sameSite : SameSite;
  expiry : Expiry;
  creationTime : Z;
  lastAccessTime : Z;
}.

(** Modelled from the spec: the parse errors of section 7 (error taxonomy of
    the absent parser). *)
Inductive ParseError := MalformedCookie | InvalidName | InvalidValue | DomainMismatch.

(** Modelled from the spec: the failures of a jar operation, a parse error or
    [InvalidUrl] (absent jar). *)
Inductive JarError := ParseFailure (e : ParseError) | InvalidUrl.

(** Modelled from the spec: "a result or a typed error", what every
    operation of the absent jar returns. *)
Inductive outcome (A : Type) : Type :=
| Done (a : A)
| Failed (e : JarError).
Arguments Done {A} a.
Arguments Failed {A} e.

(** Modelled from the spec: the identity key (domain, path, name) of a
    cookie (absent store). *)
Definition key (c : Cookie) : string * string * string :=
  (domain c, path c, name c).

(** Modelled from the spec: equality of identity keys (absent store). *)
Definition same_key (a b : Cookie) : bool := bool_decide (key a = key b).

(** Modelled from the spec: expiry test of the absent store, "expired
    once now >= expiry"; a session cookie never expires. *)
Definition expired (now : Z) (c : Cookie) : bool :=
  match expiry c with
  | Session => false
  | ExpiresAt t => (t <=? now)%Z
  end.

(** *** Cookie Parser (section 4.1) *)

(** Modelled from the spec: the attributes gathered from the attribute list
    of a raw string (intermediate record of the absent parser). *)
Record Attrs := mkAttrs {
  a_domain : option string;
  a_path : option string;
  a_secure : bool;
  a_httpOnly : bool;
  a_sameSite : SameSite;
  a_maxAge : option Z;
  a_expires : option Z;
}.

(** Modelled from the spec: the attributes of a raw string without attribute
    list (absent parser). *)
Definition no_attrs : Attrs :=
  mkAttrs None None false false SameSiteUnset None None.

(** Modelled from the spec: the "permitted cookie-octet characters" of a
    value, RFC 6265 cookie-octet (absent parser). *)
Definition is_cookie_octet (c : ascii) : bool :=
  let n := nat_of_ascii c in
  (n =? 33)%nat
  || ((35 <=? n)%nat && (n <=? 43)%nat)
  || ((45 <=? n)%nat && (n <=? 58)%nat)
  || ((60 <=? n)%nat && (n <=? 91)%nat)
  || ((93 <=? n)%nat && (n <=? 126)%nat).

(** Modelled from the spec: a name "must not contain control characters,
    whitespace, or [=]/[;]" (absent parser). *)
Definition is_name_char (c : ascii) : bool :=
  negb (is_ctl c) && negb (is_ws c)
  && negb (Ascii.eqb c "=") && negb (Ascii.eqb c ";").

(** Modelled from the spec: the double-quote character around a quoted value
    (absent parser). *)
Definition dquote : ascii := ascii_of_nat 34.

(** Modelled from the spec: a value "may be quoted in input (quotes stripped
    on parse)"; [Some inner] when [s] is written between double quotes
    (absent parser). *)
Definition unquote (s : string) : option string :=
  match s with
  | String c r =>
      if Ascii.eqb c dquote && ends_with r (String dquote EmptyString)
         && negb (String.eqb r EmptyString)
      then Some (String.substring 0 (String.length r - 1) r)
      else None
  | EmptyString => None
  end.

(** Modelled from the spec: the leading dot of a Domain attribute "is a
    matching directive, not stored" (absent parser). *)
Definition strip_leading_dot (s : string) : string :=
  match s with
  | String c r => if Ascii.eqb c "." then r else s
  | EmptyString => EmptyString
  end.

(** Modelled from the spec: the value of a SameSite attribute, read without
    regard to case (absent parser). *)
Definition parse_sameSite (v : string) : SameSite :=
  let v := lowercase v in
  if String.eqb v "strict" then SameSiteStrict
  else if String.eqb v "lax" then SameSiteLax
  else if String.eqb v "none" then SameSiteNone
  else SameSiteUnset.

(** Modelled from the spec: the declared domain "must be a suffix of the
    request host, or equal to it" (domain matching of the absent parser
    and matcher; the suffix starts at a label boundary). *)
Definition domain_match (host d : string) : bool :=
  String.eqb host d || ends_with host ("." +:+ d).

(** Modelled from the spec: the default-path algorithm of section 3 (the
    directory of the request path; [/] when there is none). *)
Fixpoint drop_last_segment (s : string) : string :=
  match s with
  | EmptyString => EmptyString
  | String c r =>
      match split_first "/" r with
      | Some _ => String c (drop_last_segment r)
      | None => EmptyString
      end
  end.

(** Modelled from the spec: the default-path of section 3, the directory of
    the request path, [/] when there is none (absent parser). *)
Definition default_path (request_path : string) : string :=
  if starts_with request_path "/" then
    match drop_last_segment request_path with
    | EmptyString => "/"
    | d => d
    end
  else "/".

Section WithDateParser.

(** The parser of [Expires] dates; [None] for a non-parseable date. *)
Variable parseDate : string -> option Z.

(** Modelled from the spec: one attribute segment of the absent parser,
    trimmed and split on its first [=]; unknown attributes are ignored
    and the last occurrence of an attribute wins. *)
Definition parse_attr (acc : Attrs) (segment : string) : Attrs :=
  let '(an, av) :=
    match split_first "=" segment with
    | Some (n, v) => (lowercase (trim n), trim v)
    | None => (lowercase (trim segment), EmptyString)
    end in
  if String.eqb an "domain" then
    match strip_leading_dot av with
    | EmptyString => acc
    | d => mkAttrs (Some (lowercase d)) (a_path acc) (a_secure acc)
             (a_httpOnly acc) (a_sameSite acc) (a_maxAge acc) (a_expires acc)
    end
  else if String.eqb an "path" then
    mkAttrs (a_domain acc) (if starts_with av "/" then Some av else None)
      (a_secure acc) (a_httpOnly acc) (a_sameSite acc) (a_maxAge acc)
      (a_expires acc)
  else if String.eqb an "secure" then
    mkAttrs (a_domain acc) (a_path acc) true (a_httpOnly acc)
      (a_sameSite acc) (a_maxAge acc) (a_expires acc)
  else if String.eqb an "httponly" then
    mkAttrs (a_domain acc) (a_path acc) (a_secure acc) true
      (a_sameSite acc) (a_maxAge acc) (a_expires acc)
  else if String.eqb an "samesite" then
    mkAttrs (a_domain acc) (a_path acc) (a_secure acc) (a_httpOnly acc)
      (parse_sameSite av) (a_maxAge acc) (a_expires acc)
  else if String.eqb an "max-age" then
    match parse_int av with
    | Some n => mkAttrs (a_domain acc) (a_path acc) (a_secure acc)
                  (a_httpOnly acc) (a_sameSite acc) (Some n) (a_expires acc)
    | None => acc
    end
  else if String.eqb an "expires" then
    match parseDate av with
    | Some t => mkAttrs (a_domain acc) (a_path acc) (a_secure acc)
                  (a_httpOnly acc) (a_sameSite acc) (a_maxAge acc) (Some t)
    | None => acc
    end
  else acc.

(** Modelled from the spec: the attribute list of the absent parser, read
    from left to right. *)
Definition parse_attrs (segments : list string) : Attrs :=
  foldl parse_attr no_attrs segments.

(** Modelled from the spec: the name/value pair of the absent parser; no
    [=] in the first segment is [MalformedCookie], an empty or illegal
    name [InvalidName], an unquoted value with an illegal octet
    [InvalidValue]; quotes are stripped. *)
Definition parse_pair (segment : string) : ParseError + (string * string) :=
  match split_first "=" segment with
  | None => inl MalformedCookie
  | Some (n, v) =>
      let n := trim n in
      let v := trim v in
      if negb (Js.truthy n) || negb (forall_chars is_name_char n)
      then inl InvalidName
      else match unquote v with
           | Some inner => inr (n, inner)
           | None =>
               if forall_chars is_cookie_octet v then inr (n, v)
               else inl InvalidValue
           end
  end.

(** Modelled from the spec: Max-Age (relative to [now]) wins over
    Expires; neither gives a session cookie (absent parser). *)
Definition expiry_of (attrs : Attrs) (now : Z) : Expiry :=
  match a_maxAge attrs with
  | Some n => ExpiresAt (now + n)
  | None =>
      match a_expires attrs with
      | Some t => ExpiresAt t
      | None => Session
      end
  end.

(** Modelled from the spec: [parse(rawSetCookie, requestUrl)] of section
    4.1, the parser of the absent engine; [now] stamps the bookkeeping
    times and anchors Max-Age. *)
Definition parse (raw : string) (u : URL) (now : Z) : ParseError + Cookie :=
  match split_all ";" raw with
  | [] => inl MalformedCookie
  | first :: segments =>
      match parse_pair first with
      | inl e => inl e
      | inr (n, v) =>
          let attrs := parse_attrs segments in
          let p := match a_path attrs with
                   | Some p => p
                   | None => default_path (url_path u)
                   end in
          match a_domain attrs with
          | Some d =>
              if domain_match (url_host u) d then
                inr (mkCookie n v d false p (a_secure attrs)
                       (a_httpOnly attrs) (a_sameSite attrs)
                       (expiry_of attrs now) now now)
              else inl DomainMismatch
          | None =>
              inr (mkCookie n v (url_host u) true p (a_secure attrs)
                     (a_httpOnly attrs) (a_sameSite attrs)
                     (expiry_of attrs now) now now)
          end
      end
  end.

End WithDateParser.

(** *** Cookie Store (section 4.2) *)

(** Modelled from the spec: the Store of the absent engine, the stored
    cookies in insertion order. *)
Abbreviation Store := (list Cookie).

(** Modelled from the spec: [upsert(cookie)] of the absent store; an entry
    with the same key is replaced in place and its creationTime kept,
    otherwise the cookie is added. *)
Fixpoint upsert (c : Cookie) (st : Store) : Store :=
  match st with
  | [] => [c]
  | o :: rest =>
      if same_key o c then
        mkCookie (name c) (value c) (domain c) (hostOnly c) (path c)
          (secure c) (httpOnly c) (sameSite c) (expiry c)
          (creationTime o) (lastAccessTime c) :: rest
      else o :: upsert c rest
  end.

(** Modelled from the spec: removal of the entry stored under a key (the
    "remove" branch of [setCookie], absent store). *)
Definition remove_key (c : Cookie) (st : Store) : Store :=
  filter (fun o => same_key o c = false) st.

(** Modelled from the spec: [removeExpired(now)] of the absent store. *)
Definition removeExpired (now : Z) (st : Store) : Store :=
  filter (fun c => expired now c = false) st.

(** Modelled from the spec: [removeAll()] of the absent store. *)
Definition removeAll (st : Store) : Store := [].

(** *** Matcher (section 4.3) *)

(** Modelled from the spec: rule 2 of the absent matcher, domain match. *)
Definition domain_visible (u : URL) (c : Cookie) : bool :=
  String.eqb (url_host u) (domain c)
  || (negb (hostOnly c) && ends_with (url_host u) ("." +:+ domain c)).

(** Modelled from the spec: "the character in request path immediately
    following the shared prefix is [/]" (rule 3 of the absent matcher). *)
Definition slash_at (n : nat) (s : string) : bool :=
  match String.get n s with
  | Some c => Ascii.eqb c "/"
  | None => false
  end.

(** Modelled from the spec: rule 3 of the absent matcher, path match. *)
Definition path_visible (u : URL) (c : Cookie) : bool :=
  String.eqb (path c) (url_path u)
  || (starts_with (url_path u) (path c)
      && (ends_with (path c) "/"
          || slash_at (String.length (path c)) (url_path u))).

(** Modelled from the spec: rule 4 of the absent matcher, secure match. *)
Definition secure_visible (u : URL) (c : Cookie) : bool :=
  negb (secure c) || secure_scheme (url_scheme u).

(** Modelled from the spec: the visibility filter of the absent matcher
    (rules 1 to 4 must all hold). *)
Definition visible (u : URL) (now : Z) (c : Cookie) : bool :=
  negb (expired now c) && domain_visible u c && path_visible u c
  && secure_visible u c.

(** Modelled from the spec: the result ordering of the absent matcher,
    "longer path first, then earlier creationTime first". *)
Definition precedes (a b : Cookie) : bool :=
  (String.length (path b) <? String.length (path a))%nat
  || ((String.length (path a) =? String.length (path b))%nat
      && (creationTime a <=? creationTime b)%Z).

(** Modelled from the spec: insertion into a result already in matcher
    order; a cookie goes before the first one it precedes (absent matcher). *)
Fixpoint insert_sorted (c : Cookie) (l : list Cookie) : list Cookie :=
  match l with
  | [] => [c]
  | o :: rest =>
      if precedes c o then c :: o :: rest else o :: insert_sorted c rest
  end.

(** Modelled from the spec: the ordering step of the absent matcher, a stable
    insertion sort by [precedes]. *)
Fixpoint sort_cookies (l : list Cookie) : list Cookie :=
  match l with
  | [] => []
  | c :: rest => insert_sorted c (sort_cookies rest)
  end.

(** Modelled from the spec: [select(url, now)] of the absent matcher. *)
Definition select (u : URL) (now : Z) (st : Store) : list Cookie :=
  sort_cookies (filter (fun c => visible u now c = true) st).

(** Modelled from the spec: serialization of the selected cookies as
    [name=value] pairs joined by ["; "] (absent matcher). *)
Definition serialize (cs : list Cookie) : string :=
  String.concat "; " (map (fun c => name c +:+ "=" +:+ value c) cs).

(** *** Jar facade (section 4.4) *)

Section Facade.

Variable parseDate : string -> option Z.

(** Modelled from the spec: [setCookie(raw, url)] of the absent jar,
    parse then upsert, or remove when the cookie is already expired
    (Max-Age=0 or a past Expires); the store is untouched on failure. *)
Definition setCookie (raw url : string) (now : Z) (st : Store)
  : outcome Store :=
  match parse_url url with
  | None => Failed InvalidUrl
  | Some u =>
      match parse parseDate raw u now with
      | inl e => Failed (ParseFailure e)
      | inr c =>
          if expired now c then Done (remove_key c st)
          else Done (upsert c st)
      end
  end.

(** Modelled from the spec: [getCookies(url)] of the absent jar; expired
    entries are purged from the store as a side effect. *)
Definition getCookies (url : string) (now : Z) (st : Store)
  : outcome (list Cookie * Store) :=
  match parse_url url with
  | None => Failed InvalidUrl
  | Some u => Done (select u now st, removeExpired now st)
  end.

(** Modelled from the spec: [getCookieString(url)] of the absent jar. *)
Definition getCookieString (url : string) (now : Z) (st : Store)
  : outcome (string * Store) :=
  match getCookies url now st with
  | Failed e => Failed e
  | Done (cs, st') => Done (serialize cs, st')
  end.

(** Modelled from the spec: [removeAllCookies()] of the absent jar. *)
Definition removeAllCookies (st : Store) : outcome Store :=
  Done (removeAll st).

End Facade.

(** Modelled from the spec: the message carried by the error a failed jar
    operation hands to its callback (absent jar). *)
Definition error_message (e : JarError) : string :=
  match e with
  | ParseFailure MalformedCookie => "Cookie failed to parse"
  | ParseFailure InvalidName => "Cookie has an invalid name"
  | ParseFailure InvalidValue => "Cookie has an invalid value"
  | ParseFailure DomainMismatch => "Cookie not in this host's domain"
  | InvalidUrl => "Invalid URL"
  end.

End Engine.

(** The engine seen through the interface the plugin uses, at the instant
    [now] read from the clock. *)
Definition engine_jar (parseDate : string -> option Z) (now : Z)
  : CookieJar Engine.Store := {|
  newCookieJar := [];
  getCookieString url st :=
    match Engine.getCookieString url now st with
    | Engine.Done (s, st') => (st', Ok s)
    | Engine.Failed e => (st, Throw (Engine.error_message e))
    end;
  setCookie raw url st :=
    match Engine.setCookie parseDate raw url now st with
    | Engine.Done st' => (st', None)
    | Engine.Failed e => (st, Some (Engine.error_message e))
    end;
|}.

(** ** What the URL-resolution rule says, in its own words *)

(** [context.req?.url || ''] *)
Definition requestUrlOf (context : Context) : string :=
  Js.or_str (ctx_req context ≫= req_url) EmptyString.

(** [context.req?.baseURL || context.client?.config?.baseURL || ''] *)
Definition baseURLOf (context : Context) : string :=
  Js.or_str (ctx_req context ≫= req_baseURL)
    (Js.or_str ((ctx_client context ≫= client_config) ≫= config_baseURL)
       EmptyString).

(** [context.url] is set: present and not the empty string. *)
Definition url_set (context : Context) (u : string) : Prop :=
  ctx_url context = Some u /\ u <> EmptyString.

Definition url_unset (context : Context) : Prop :=
  ctx_url context = None \/ ctx_url context = Some EmptyString.

Definition is_absolute (r : string) : Prop :=
  (exists t, r = "http://" +:+ t) \/ (exists t, r = "https://" +:+ t).

(** [p] is [s] with one trailing [/] removed (nothing removed if [s] does
    not end with [/]). *)
Definition one_trailing_slash_removed (s p : string) : Prop :=
  s = p +:+ "/" \/ (p = s /\ forall q, s <> q +:+ "/").

(** [p] is [s] with one leading [/] removed. *)
Definition one_leading_slash_removed (s p : string) : Prop :=
  s = "/" +:+ p \/ (p = s /\ forall q, s <> "/" +:+ q).

(** The four cases of the rule. *)
Inductive ResolvedUrl (context : Context) : string -> Prop :=
| resolved_context_url u :
    url_set context u ->
    ResolvedUrl context u
| resolved_absolute :
    url_unset context ->
    is_absolute (requestUrlOf context) ->
    ResolvedUrl context (requestUrlOf context)
| resolved_joined b r :
    url_unset context ->
    ~ is_absolute (requestUrlOf context) ->
    baseURLOf context <> EmptyString ->
    one_trailing_slash_removed (baseURLOf context) b ->
    one_leading_slash_removed (requestUrlOf context) r ->
    ResolvedUrl context (b +:+ "/" +:+ r)
| resolved_relative :
    url_unset context ->
    ~ is_absolute (requestUrlOf context) ->
    baseURLOf context = EmptyString ->
    ResolvedUrl context (requestUrlOf context).

(** ** The warnings the storing loop prints *)

Section Warnings.
Context {J : Type} `{CookieJar J}.

Definition warning_of (err : option string) : list string :=
  match err with
  | Some message => ["[cookie-jar] Failed to store cookie: " +:+ message]
  | None => []
  end.

(** The warnings printed while the values [values] are stored into a jar
    that starts in state [j]. *)
Fixpoint warnings_of (url : string) (j : J) (values : list string) : list string :=
  match values with
  | [] => []
  | value :: rest =>
      warning_of (setCookie value url j).2
      ++ warnings_of url (setCookie value url j).1 rest
  end.

(** The jar after the values [values] have been stored one by one. *)
Definition stored_all (url : string) (j : J) (values : list string) : J :=
  foldl (fun j value => (setCookie value url j).1) j values.

End Warnings.

(** ** Set-Cookie occurrences, as the ingestion property speaks of them *)

(** The occurrences that are not ignored: the one at position [i] is kept
    unless its literal value already occurs among the [i] before it. *)
Definition first_occurrences (occurrences : list string) : list string :=
  (filter (fun iv : nat * string => iv.2 ∉ take iv.1 occurrences)
     (imap pair occurrences)).*2.

(** [Headers.prototype.get] of the Fetch standard for ['set-cookie'] on a
    response that carries the given occurrences: their values joined by
    [", "], [null] when there is none.  The headers object belongs to the
    HTTP client; this is the standard's combined value. *)
Definition fetch_get (occurrences : list string) : option string :=
  match occurrences with
  | [] => None
  | _ => Some (String.concat ", " occurrences)
  end.

(** A response carrying the given occurrences whose headers object offers
    [get] but not [getSetCookie], and which has no Node-like fields. *)
Definition get_only_response (occurrences : list string) : Response :=
  mkResponse (Some (HeadersGet (fetch_get occurrences))) None None.




(** ** Ingestion and clients, as the properties speak of them *)

(** The values the storing loop iterates over for a response. *)
Definition setCookieValuesOf (res : option Response) : list string :=
  match res with
  | Some r =>
      match res_headers r with
      | Some rawHeaders => deduplicate (collectSetCookieValues r rawHeaders)
      | None => []
      end
  | None => []
  end.


(** A cookie operation issued through a client that carries the plugin:
    the two hooks, one iteration of the storing loop (the granularity at
    which awaited hooks of different clients interleave), and the direct
    calls on [client.jar]. *)
Inductive Op :=
| OpRequest (context : Context)
| OpResponse (context : Context)
| OpStoreOne (url value : string)
| OpSetCookie (raw url : string)
| OpGetCookieString (url : string).

Section Clients.
Context {J : Type} `{CookieJar J}.

(** Running one operation through the plugin of a client; a rejection is
    left to the caller and does not stop later operations. *)
Definition run_op (p : Plugin) (op : Op) (w : World J) : World J :=
  match op with
  | OpRequest context => (onRequest p context w).1
  | OpResponse context => (onResponse p context w).1
  | OpStoreOne url value => (storeOne (plugin_jar p) url value w).1
  | OpSetCookie raw url => (jar_setCookie (plugin_jar p) raw url w).1
  | OpGetCookieString url => (jar_getCookieString (plugin_jar p) url w).1
  end.

(** A schedule lists, in commit order, which of two clients ([true] for
    the first) issues which operation. *)
Definition run_schedule (p1 p2 : Plugin) (schedule : list (bool * Op))
    (w : World J) : World J :=
  foldl (fun w (step : bool * Op) =>
           run_op (if step.1 then p1 else p2) step.2 w) w schedule.

(** The operations of a schedule issued by one of the two clients. *)
Definition issued_by (who : bool) (schedule : list (bool * Op)) : list Op :=
  (filter (fun step : bool * Op => step.1 = who) schedule).*2.

(** What an operation does to the jar object it reaches. *)
Definition jar_effect (op : Op) (j : J) : J :=
  match op with
  | OpRequest context =>
      match ctx_req context with
      | Some _ => (getCookieString (resolveAbsoluteUrl context) j).1
      | None => j
      end
  | OpResponse context =>
      stored_all (resolveAbsoluteUrl context) j
        (setCookieValuesOf (ctx_res context))
  | OpStoreOne url value => (setCookie value url j).1
  | OpSetCookie raw url => (setCookie raw url j).1
  | OpGetCookieString url => (getCookieString url j).1
  end.

(** The jar after a sequence of operations has reached it. *)
Definition effects_of (ops : list Op) (j : J) : J :=
  foldl (fun j op => jar_effect op j) j ops.

(** What a client observes of cookie state: the jar its plugin refers to. *)
Definition observed (p : Plugin) (w : World J) : option J :=
  heap w !! plugin_jar p.

End Clients.

(** ** The engine's ordering and write rules, as the properties speak of them *)

Module EngineSpec.
Import Engine.

(** "longer path first, then earlier creationTime first" *)
Definition ordered_before (a b : Cookie) : Prop :=
  (String.length (path b) < String.length (path a))%nat \/
  (String.length (path a) = String.length (path b) /\
   (creationTime a <= creationTime b)%Z).

(** The attributes a raw string declares after its name/value pair. *)
Definition attributes (parseDate : string -> option Z) (raw : string) : Attrs :=
  parse_attrs parseDate (tail (split_all ";" raw)).

(** The raw string carries [Max-Age=0], or no Max-Age and an [Expires] date
    before [now]. *)
Definition marked_for_removal (parseDate : string -> option Z) (raw : string)
    (now : Z) : Prop :=
  a_maxAge (attributes parseDate raw) = Some 0%Z \/
  (a_maxAge (attributes parseDate raw) = None /\
   exists t, a_expires (attributes parseDate raw) = Some t /\ (t < now)%Z).

(** The cookie declared by the raw string is already expired at [now]. *)
Definition expires_by (parseDate : string -> option Z) (raw : string)
    (now : Z) : bool :=
  match expiry_of (attributes parseDate raw) now with
  | Session => false
  | ExpiresAt t => (t <=? now)%Z
  end.

(** Everything of a stored cookie but its expiry and lastAccessTime. *)
Definition stable_part (c : Cookie) :=
  (key c, value c, hostOnly c, secure c, httpOnly c, sameSite c, creationTime c).

End EngineSpec.

(** ** The scenarios of the test suite, as data *)

Module Scenario.

(** No [Expires] date occurs in the scenarios. *)
Definition noDates (s : string) : option Z := None.

Definition BASE_URL : string := "http://localhost:4203".

(** The instant at which the scenarios run. *)
Definition today : Z := 1000.

#[export] Instance scenario_jar : CookieJar Engine.Store :=
  engine_jar noDates today.

Definition store_after (raw url : string) (st : Engine.Store) : Engine.Store :=
  (setCookie raw url st).1.

(** [await client.jar.setCookie('jar_cookie=from_jar; Path=/', BASE_URL)] *)
Definition jar_store : Engine.Store :=
  store_after "jar_cookie=from_jar; Path=/" BASE_URL [].

Definition the_jar : loc := 1%positive.

Definition the_plugin : Plugin := mkPlugin "cookie-jar" the_jar.

Definition the_client : Client :=
  mkClient (Some (mkClientConfig (Some BASE_URL))) (Some the_jar).

Definition world_with (st : Engine.Store) : World Engine.Store :=
  mkWorld {[ the_jar := st ]} [].

(** [client.getJson('/echo-cookies', { headers: { Cookie: ... } })] *)
Definition manual_request : Request :=
  mkRequest (Some "/echo-cookies") None
    (Some {[ "Cookie" := "manual_cookie=from_header" ]}).

Definition manual_context : Context :=
  mkContext None (Some manual_request) (Some the_client) None.

(** [client.getJson('/echo-cookies')] with no headers of its own. *)
Definition plain_request : Request :=
  mkRequest (Some "/echo-cookies") None None.

Definition plain_context : Context :=
  mkContext None (Some plain_request) (Some the_client) None.

(** A response carrying [Set-Cookie: malformed] and
    [Set-Cookie: session=abc123; Path=/], the second one twice. *)
Definition mixed_response : Response :=
  mkResponse
    (Some (HeadersGetSetCookie
             ["malformed"; "session=abc123; Path=/"; "session=abc123; Path=/"]))
    None None.


Definition mixed_context : Context :=
  mkContext None (Some (mkRequest (Some "/set-cookie") None None))
    (Some the_client) (Some mixed_response).

(** A response object without a [headers] field. *)
Definition bare_response : Response := mkResponse None None None.

Definition bare_context : Context :=
  mkContext None (Some (mkRequest (Some "/json") None None))
    (Some the_client) (Some bare_response).

(** [name=root; Path=/] then [name=api; Path=/api], same host. *)
Definition two_paths_store : Engine.Store :=
  store_after "name=api; Path=/api" BASE_URL
    (store_after "name=root; Path=/" BASE_URL []).

Definition under_api : string := "http://localhost:4203/api/anything".

Definition cookies_under_api : list Engine.Cookie :=
  match Engine.getCookies under_api today two_paths_store with
  | Engine.Done (cs, _) => cs
  | Engine.Failed _ => []
  end.

(** [deleteme=value; Path=/] is in the jar when the server deletes it. *)
Definition deleteme_store : Engine.Store :=
  store_after "deleteme=value; Path=/" BASE_URL jar_store.

(** Two occurrences, as a response whose headers object only has [get]
    presents them, and as one with [getSetCookie] does. *)
Definition two_occurrences : list string := ["a=1; Path=/"; "b=2; Path=/"].

Definition two_via_get : Response := get_only_response two_occurrences.

Definition two_via_getSetCookie : Response :=
  mkResponse (Some (HeadersGetSetCookie two_occurrences)) None None.

Definition context_with (res : Response) : Context :=
  mkContext None (Some (mkRequest (Some "/set-cookie") None None))
    (Some the_client) (Some res).

End Scenario.

(** ** test-cli/testRunner.js: the bookkeeping of [runAllTests]

    Console output, the timers and the start and stop of the mock servers
    are left out; the duration measured for a suite is an input. *)

Module TestRunner.

(** What [suite.run()] resolves to: the three counters the runner reads,
    and the [name] and [error] properties the object may carry, which the
    spread [...results] copies into the suite's row. *)
Record Results := mkResults {
  passed : nat;
  failed : nat;
  total : nat;
  results_name : option string;
  results_error : option string;
}.

(** Awaiting [suite.run()] either resolves to results or rejects. *)
Inductive RunOutcome :=
| Resolved (results : Results)
| Rejected (message : string).

(** One entry of [TEST_SUITES] as the loop meets it. *)
Record SuiteRun := mkSuiteRun {
  run_name : string;
  run_outcome : RunOutcome;
  run_duration : Z;
}.

(** One element of [overallResults.suiteResults]:
    [{ name, ...results, duration, status }], or the row of the [catch]
    branch. *)
Record SuiteResult := mkSuiteResult {
  sr_name : string;
  sr_passed : nat;
  sr_failed : nat;
  sr_total : nat;
  sr_duration : Z;
  sr_status : string;
  sr_error : option string;
}.

(** [overallResults] *)
Record OverallResults := mkOverallResults {
  totalSuites : nat;
  passedSuites : nat;
  failedSuites : nat;
  totalTests : nat;
  passedTests : nat;
  failedTests : nat;
  suiteResults : list SuiteResult;
}.

(** The initial [overallResults]; [n] is [TEST_SUITES.length]. *)
Definition initialResults (n : nat) : OverallResults :=
  mkOverallResults n 0 0 0 0 0 [].

(** One iteration of the loop over [TEST_SUITES]: the [try] branch when
    [suite.run()] resolves, the [catch] branch when it rejects. *)
Definition recordSuite (o : OverallResults) (r : SuiteRun) : OverallResults :=
  match run_outcome r with
  | Resolved results =>
      let status := if (failed results =? 0)%nat then "PASSED" else "FAILED" in
      mkOverallResults (totalSuites o)
        (if (failed results =? 0)%nat then S (passedSuites o) else passedSuites o)
        (if (failed results =? 0)%nat then failedSuites o else S (failedSuites o))
        (totalTests o + total results)
        (passedTests o + passed results)
        (failedTests o + failed results)
        (suiteResults o ++
         [mkSuiteResult (default (run_name r) (results_name results))
            (passed results) (failed results) (total results)
            (run_duration r) status (results_error results)])
  | Rejected message =>
      mkOverallResults (totalSuites o) (passedSuites o) (S (failedSuites o))
        (totalTests o) (passedTests o) (failedTests o)
        (suiteResults o ++
         [mkSuiteResult (run_name r) 0 1 1 (run_duration r) "ERROR"
            (Some message)])
  end.

(** [overallResults] after the loop of [runAllTests]. *)
Definition runAllTests (runs : list SuiteRun) : OverallResults :=
  foldl recordSuite (initialResults (length runs)) runs.

(** [failedSuites === 0 && failedTests === 0] *)
Definition overallSuccess (o : OverallResults) : bool :=
  (failedSuites o =? 0)%nat && (failedTests o =? 0)%nat.

(** The argument of the final [process.exit]. *)
Definition exitCode (o : OverallResults) : Z :=
  if overallSuccess o then 0%Z else 1%Z.

(** The suite ran to completion and reported no failed test. *)
Definition clean (r : SuiteRun) : Prop :=
  match run_outcome r with
  | Resolved results => failed results = 0
  | Rejected _ => False
  end.

#[export] Instance clean_decision (r : SuiteRun) : Decision (clean r) :=
  match run_outcome r as o
    return Decision (match o with
                     | Resolved results => failed results = 0
                     | Rejected _ => False
                     end)
  with
  | Resolved results => decide (failed results = 0)
  | Rejected _ => right (fun x : False => x)
  end.

(** The suites whose [run()] rejected. *)
Definition rejected (r : SuiteRun) : bool :=
  match run_outcome r with
  | Resolved _ => false
  | Rejected _ => true
  end.

(** The [failed] counter a suite reported, if it ran. *)
Definition reported_failed (r : SuiteRun) : nat :=
  match run_outcome r with
  | Resolved results => failed results
  | Rejected _ => 0
  end.

Definition reported_total (r : SuiteRun) : nat :=
  match run_outcome r with
  | Resolved results => total results
  | Rejected _ => 0
  end.

End TestRunner.

(** ** Further requests and responses of the test suite, as data *)

Module MoreScenario.
Import Scenario.

(** A request whose cookie is given under the lower-case key. *)
Definition lowercase_request : Request :=
  mkRequest (Some "/echo-cookies") None
    (Some {[ "cookie" := "manual_cookie=from_header" ]}).

Definition lowercase_context : Context :=
  mkContext None (Some lowercase_request) (Some the_client) None.

(** A request that carries both spellings. *)
Definition both_headers : gmap string string :=
  {[ "Cookie" := "upper=1"; "cookie" := "lower=2" ]}.

Definition both_request : Request :=
  mkRequest (Some "/echo-cookies") None (Some both_headers).

Definition both_context : Context :=
  mkContext None (Some both_request) (Some the_client) None.

(** A context without a request object. *)
Definition no_request_context : Context :=
  mkContext None None (Some the_client) None.

(** A response whose headers object has neither accessor. *)
Definition other_response : Response := mkResponse (Some HeadersOther) None None.

Definition other_context : Context :=
  mkContext None (Some plain_request) (Some the_client) (Some other_response).

(** A response whose headers object only has [get], which returns two
    cookies joined into one string. *)
Definition joined_response : Response :=
  mkResponse (Some (HeadersGet (Some "a=1; Path=/, b=2; Path=/"))) None None.

Definition joined_context : Context :=
  mkContext None (Some plain_request) (Some the_client) (Some joined_response).

(** A Node-like response whose raw ['set-cookie'] entry is a string while
    [meta] holds an array. *)
Definition raw_string_response : Response :=
  mkResponse (Some HeadersOther)
    (Some (mkRawResponse (Some {[ "set-cookie" := HString "a=1; Path=/" ]})))
    (Some {[ "set-cookie" := HArray ["b=2; Path=/"] ]}).

(** A response seen through both shapes. *)
Definition both_shapes_response : Response :=
  mkResponse (Some (HeadersGetSetCookie ["a=1; Path=/"; "b=2; Path=/"]))
    (Some (mkRawResponse
             (Some {[ "set-cookie" := HArray ["b=2; Path=/"; "a=1; Path=/"] ]})))
    None.

(** Three suites: one passes, one reports a failure, one crashes. *)
Definition sample_runs : list TestRunner.SuiteRun :=
  [ TestRunner.mkSuiteRun "Basic Cookie Operations"
      (TestRunner.Resolved (TestRunner.mkResults 7 0 7 None None)) 1200;
    TestRunner.mkSuiteRun "Shared Cookie Jar"
      (TestRunner.Resolved (TestRunner.mkResults 4 1 5 None None)) 900;
    TestRunner.mkSuiteRun "Edge Cases"
      (TestRunner.Rejected "listen EADDRINUSE") 3 ].

Definition passing_runs : list TestRunner.SuiteRun :=
  [ TestRunner.mkSuiteRun "Basic Cookie Operations"
      (TestRunner.Resolved (TestRunner.mkResults 7 0 7 None None)) 1200;
    TestRunner.mkSuiteRun "Shared Cookie Jar"
      (TestRunner.Resolved (TestRunner.mkResults 5 0 5 None None)) 900 ].

End MoreScenario.

(** * Properties *)

(** ** JavaScript string helpers *)

Module JsFacts.
Import Js.

Lemma truthy_true s : truthy s = true <-> s <> EmptyString.
Proof. destruct s; simpl; split; congruence. Qed.

Lemma truthy_false s : truthy s = false <-> s = EmptyString.
Proof. destruct s; simpl; split; congruence. Qed.

Lemma or_str_empty o :
  or_str o EmptyString = EmptyString <-> o = None \/ o = Some EmptyString.
Proof.
  destruct o as [[|c r]|]; simpl; split; intros; auto;
    try discriminate; destruct H as [?|?]; congruence.
Qed.

Lemma startsWith_app s p : startsWith s p = true <-> exists t, s = p +:+ t.
Proof.
  unfold startsWith. revert s.
  induction p as [|c p IH]; intros s; simpl.
  - split; [intros _; by exists s | intros _; by destruct s].
  - destruct s as [|d s]; simpl.
    + split; [discriminate | intros [t Ht]; discriminate].
    + destruct (ascii_dec c d) as [->|Hcd]; simpl.
      * rewrite IH. split; intros [t Ht]; exists t.
        -- by rewrite Ht.
        -- simpl in Ht. by inversion Ht.
      * split; [discriminate | intros [t Ht]].
        simpl in Ht. inversion Ht. congruence.
Qed.

Lemma replaceTrailingSlash_app_slash s :
  replaceTrailingSlash (s +:+ "/") = s.
Proof.
  induction s as [|c r IH]; [reflexivity|].
  simpl. rewrite IH. destruct r; reflexivity.
Qed.

Lemma replaceTrailingSlash_cons2 c d r :
  replaceTrailingSlash (String c (String d r)) =
  String c (replaceTrailingSlash (String d r)).
Proof. reflexivity. Qed.

Lemma replaceTrailingSlash_cases s :
  s = replaceTrailingSlash s +:+ "/" \/
  (replaceTrailingSlash s = s /\ forall p, s <> p +:+ "/").
Proof.
  induction s as [|c r IH].
  - right. split; [reflexivity|]. intros [|? ?]; discriminate.
  - destruct r as [|d r'].
    + simpl. destruct (Ascii.eqb_spec c "/") as [->|Hc].
      * left. reflexivity.
      * right. split; [reflexivity|].
        intros [|a [|b p]] H; simpl in H; inversion H; congruence.
    + rewrite replaceTrailingSlash_cons2.
      destruct IH as [IH|[IH1 IH2]].
      * left.
        change (String c (String d r') =
                String c (replaceTrailingSlash (String d r') +:+ "/")).
        f_equal. exact IH.
      * right. split; [by rewrite IH1|].
        intros [|a p] H; [discriminate|].
        change (String c (String d r') = String a (p +:+ "/")) in H.
        inversion H; subst. by eapply IH2.
Qed.

Lemma trailing_slash_removed_iff s p :
  one_trailing_slash_removed s p <-> p = replaceTrailingSlash s.
Proof.
  split.
  - intros [->|[-> Hno]].
    + by rewrite replaceTrailingSlash_app_slash.
    + destruct (replaceTrailingSlash_cases s) as [E|[E _]]; [|done].
      by apply Hno in E.
  - intros ->. destruct (replaceTrailingSlash_cases s) as [E|[E Hno]].
    + by left.
    + right. by rewrite E.
Qed.

Lemma leading_slash_removed_iff s p :
  one_leading_slash_removed s p <-> p = replaceLeadingSlash s.
Proof.
  split.
  - intros [->|[-> Hno]]; [reflexivity|].
    destruct s as [|c r]; [reflexivity|]. simpl.
    destruct (Ascii.eqb_spec c "/") as [->|Hc]; [|reflexivity].
    by specialize (Hno r).
  - intros ->. destruct s as [|c r]; simpl.
    + right. split; [reflexivity | intros q; discriminate].
    + destruct (Ascii.eqb_spec c "/") as [->|Hc].
      * by left.
      * right. split; [reflexivity|]. intros q E. simpl in E.
        inversion E. congruence.
Qed.

Lemma is_absolute_iff r :
  is_absolute r <->
  startsWith r "http://" || startsWith r "https://" = true.
Proof.
  unfold is_absolute. rewrite orb_true_iff, !startsWith_app. done.
Qed.

End JsFacts.

(** ** URL resolution *)

Section ResolveFacts.
Import Js JsFacts.

Lemma resolve_unset context :
  url_unset context ->
  truthy (or_str (ctx_url context) EmptyString) = false.
Proof. intros Hu. apply truthy_false, or_str_empty, Hu. Qed.

Lemma resolve_set context u :
  url_set context u ->
  or_str (ctx_url context) EmptyString = u /\ truthy u = true.
Proof.
  intros [E Hne]. rewrite E. apply truthy_true in Hne as Ht.
  simpl. by rewrite Ht.
Qed.

Lemma url_set_or_unset context :
  (exists u, url_set context u) \/ url_unset context.
Proof.
  unfold url_set, url_unset.
  destruct (ctx_url context) as [[|c r]|];
    [by right; right | | by right; left].
  left. eexists. split; [reflexivity | discriminate].
Qed.

Lemma url_set_not_unset context u : url_set context u -> ~ url_unset context.
Proof. intros [E Hne] [E'|E']; congruence. Qed.

(** C10: the URL used for cookie operations is determined by the context
    alone and follows the four-case rule: [context.url] when set; else an
    absolute [http://]/[https://] request URL verbatim; else, with a base,
    the base less one trailing slash, a slash, and the request URL less one
    leading slash; else the relative request URL itself. *)
Theorem resolveAbsoluteUrl_rule (context : Context) :
  ResolvedUrl context (resolveAbsoluteUrl context) /\
  (forall u, ResolvedUrl context u -> u = resolveAbsoluteUrl context).
Proof.
  assert (Hfun : forall u, ResolvedUrl context u -> u = resolveAbsoluteUrl context).
  { intros u Hr. unfold resolveAbsoluteUrl.
    fold (requestUrlOf context). fold (baseURLOf context).
    destruct Hr as [u Hs|Hu Ha|b r Hu Ha Hb Hb' Hr'|Hu Ha Hb].
    - destruct (resolve_set _ _ Hs) as [-> ->]. reflexivity.
    - rewrite (resolve_unset _ Hu).
      apply is_absolute_iff in Ha. by rewrite Ha.
    - rewrite (resolve_unset _ Hu).
      destruct (startsWith _ "http://" || startsWith _ "https://") eqn:E.
      { by apply is_absolute_iff in E. }
      apply truthy_true in Hb. rewrite Hb. simpl.
      apply trailing_slash_removed_iff in Hb'.
      apply leading_slash_removed_iff in Hr'. by subst.
    - rewrite (resolve_unset _ Hu).
      destruct (startsWith _ "http://" || startsWith _ "https://") eqn:E.
      { by apply is_absolute_iff in E. }
      apply truthy_false in Hb. by rewrite Hb. }
  split; [|exact Hfun].
  destruct (url_set_or_unset context) as [[u Hs]|Hu].
  - rewrite <- (Hfun u); by constructor.
  - destruct (startsWith (requestUrlOf context) "http://"
              || startsWith (requestUrlOf context) "https://") eqn:E.
    + assert (Ha : is_absolute (requestUrlOf context)) by by apply is_absolute_iff.
      rewrite <- (Hfun (requestUrlOf context)); by constructor.
    + assert (Ha : ~ is_absolute (requestUrlOf context)).
      { intros Ha. apply is_absolute_iff in Ha. congruence. }
      destruct (truthy (baseURLOf context)) eqn:Eb.
      * apply truthy_true in Eb.
        assert (Hr : ResolvedUrl context
                       (replaceTrailingSlash (baseURLOf context) +:+ "/" +:+
                        replaceLeadingSlash (requestUrlOf context))).
        { apply resolved_joined; try done.
          - by apply trailing_slash_removed_iff.
          - by apply leading_slash_removed_iff. }
        by rewrite <- (Hfun _ Hr).
      * apply truthy_false in Eb.
        rewrite <- (Hfun (requestUrlOf context)); by constructor.
Qed.

End ResolveFacts.


(** ** The hooks *)

Section HookFacts.
Context {J : Type} `{CookieJar J}.
Import Js JsFacts.

Lemma world_eta (w : World J) : mkWorld (heap w) (console w) = w.
Proof. by destruct w. Qed.

Lemma jar_setCookie_live jar value url (w : World J) j :
  heap w !! jar = Some j ->
  jar_setCookie jar value url w =
  (mkWorld (<[jar := (setCookie value url j).1]> (heap w)) (console w),
   match (setCookie value url j).2 with
   | Some e => Throw e
   | None => Ok tt
   end).
Proof.
  intros Hj. unfold jar_setCookie. rewrite Hj.
  by destruct (setCookie value url j).
Qed.

Lemma jar_getCookieString_live jar url (w : World J) j :
  heap w !! jar = Some j ->
  jar_getCookieString jar url w =
  (mkWorld (<[jar := (getCookieString url j).1]> (heap w)) (console w),
   (getCookieString url j).2).
Proof.
  intros Hj. unfold jar_getCookieString. rewrite Hj.
  by destruct (getCookieString url j).
Qed.

(** One iteration of the loop on a live jar: the call is made, its failure
    becomes a warning, and the iteration completes normally. *)
Lemma storeOne_live jar url value (w : World J) j :
  heap w !! jar = Some j ->
  storeOne jar url value w =
  (mkWorld (<[jar := (setCookie value url j).1]> (heap w))
     (console w ++ warning_of (setCookie value url j).2),
   Ok tt).
Proof.
  intros Hj. unfold storeOne, try_catch.
  rewrite (jar_setCookie_live _ _ _ _ _ Hj).
  destruct (setCookie value url j) as [j' [e|]]; simpl.
  - reflexivity.
  - by rewrite app_nil_r.
Qed.

(** One iteration never throws, whatever the jar reference is. *)
Lemma storeOne_total jar url value (w : World J) :
  exists w', storeOne jar url value w = (w', Ok tt).
Proof.
  destruct (heap w !! jar) as [j|] eqn:Hj.
  - rewrite (storeOne_live _ _ _ _ _ Hj). eauto.
  - unfold storeOne, try_catch, jar_setCookie. rewrite Hj.
    unfold console_warn. eauto.
Qed.

Lemma for_of_storeOne_total jar url values (w : World J) :
  exists w', for_of values (storeOne jar url) w = (w', Ok tt).
Proof.
  revert w. induction values as [|value rest IH]; intros w; simpl.
  - by exists w.
  - unfold bind. destruct (storeOne_total jar url value w) as [w1 ->].
    apply IH.
Qed.

Lemma for_of_storeOne_live jar url values (w : World J) j :
  heap w !! jar = Some j ->
  for_of values (storeOne jar url) w =
  (mkWorld (<[jar := stored_all url j values]> (heap w))
     (console w ++ warnings_of url j values),
   Ok tt).
Proof.
  revert w j. induction values as [|value rest IH]; intros w j Hj; simpl.
  - unfold ret. rewrite app_nil_r, (insert_id _ _ _ Hj). by rewrite world_eta.
  - unfold bind. rewrite (storeOne_live _ _ _ _ _ Hj).
    rewrite (IH _ (setCookie value url j).1); simpl.
    + by rewrite insert_insert_eq, <- app_assoc.
    + by rewrite lookup_insert_eq.
Qed.

Lemma storeSetCookiesFromResponse_loop jar url res :
  storeSetCookiesFromResponse jar url res =
  for_of (setCookieValuesOf res) (storeOne jar url).
Proof.
  unfold storeSetCookiesFromResponse, setCookieValuesOf.
  destruct res as [r|]; [|reflexivity].
  by destruct (res_headers r).
Qed.

End HookFacts.

(** ** Deduplication *)

Section DedupFacts.

Lemma elem_of_dedupe_from seen values v :
  v ∈ dedupe_from seen values <-> v ∈ values /\ v ∉ seen.
Proof.
  revert seen. induction values as [|value rest IH]; intros seen; simpl.
  - set_solver.
  - destruct (decide (value ∈ seen)) as [Hin|Hout].
    + rewrite IH. set_solver.
    + rewrite elem_of_cons, IH, elem_of_cons.
      destruct (decide (v = value)) as [->|Hne]; set_solver.
Qed.

Lemma NoDup_dedupe_from seen values : NoDup (dedupe_from seen values).
Proof.
  revert seen. induction values as [|value rest IH]; intros seen; simpl.
  - constructor.
  - destruct (decide (value ∈ seen)); [apply IH|].
    constructor; [|apply IH].
    rewrite elem_of_dedupe_from. set_solver.
Qed.





End DedupFacts.

(** ** The hooks: request side and response side *)

Section HookTheorems.
Context {J : Type} `{CookieJar J}.
Import Js JsFacts.

(** C1: when the request already carries a Cookie value and the jar returns
    a non-empty string, the outgoing [Cookie] header is the caller's value,
    then ["; "], then the jar's string; every other header field is kept. *)
Theorem onRequest_appends_jar_after_manual_cookie
    (p : Plugin) (context : Context) (w : World J) (req : Request) (j : J)
    (jarCookie : string) :
  ctx_req context = Some req ->
  heap w !! plugin_jar p = Some j ->
  existingCookieOf (default ∅ (req_headers req)) <> EmptyString ->
  (getCookieString (resolveAbsoluteUrl context) j).2 = Ok jarCookie ->
  jarCookie <> EmptyString ->
  exists w' req' headers',
    onRequest p context w =
      (w', Ok (mkContext (ctx_url context) (Some req') (ctx_client context)
                 (ctx_res context))) /\
    req_url req' = req_url req /\
    req_baseURL req' = req_baseURL req /\
    req_headers req' = Some headers' /\
    headers' !! "Cookie" =
      Some (existingCookieOf (default ∅ (req_headers req)) +:+ "; " +:+ jarCookie) /\
    (forall k, k <> "Cookie" ->
               headers' !! k = default ∅ (req_headers req) !! k).
Proof.
  intros Hreq Hj Hex Hjar Hne.
  unfold onRequest. rewrite Hreq. unfold bind.
  rewrite (jar_getCookieString_live _ _ _ _ Hj), Hjar.
  apply truthy_true in Hne as ->. apply truthy_true in Hex as ->.
  unfold ret. do 3 eexists. split; [reflexivity|]. simpl.
  repeat split.
  - apply lookup_insert_eq.
  - intros k Hk. by apply lookup_insert_ne.
Qed.

(** A caller-supplied [Cookie] header is the value the merge starts from. *)
Lemma existingCookieOf_Cookie (headers : gmap string string) manual :
  headers !! "Cookie" = Some manual -> manual <> EmptyString ->
  existingCookieOf headers = manual.
Proof.
  intros E Hne. unfold existingCookieOf. rewrite E. simpl.
  apply truthy_true in Hne. by rewrite Hne.
Qed.

(** C8: when the jar yields the empty string, the hook returns the context
    it was given: the request and its headers are untouched and no Cookie
    header is added. *)
Theorem onRequest_empty_jar_string_keeps_request
    (p : Plugin) (context : Context) (w : World J) (req : Request) (j : J) :
  ctx_req context = Some req ->
  heap w !! plugin_jar p = Some j ->
  (getCookieString (resolveAbsoluteUrl context) j).2 = Ok EmptyString ->
  exists w', onRequest p context w = (w', Ok context) /\ console w' = console w.
Proof.
  intros Hreq Hj Hjar.
  unfold onRequest. rewrite Hreq. unfold bind.
  rewrite (jar_getCookieString_live _ _ _ _ Hj), Hjar. simpl.
  unfold ret. eexists. split; reflexivity.
Qed.

(** C9: with no response, or a response without headers, the response hook
    returns normally and the world (every jar and the console) is exactly
    what it was. *)
Theorem onResponse_without_headers_is_noop
    (p : Plugin) (context : Context) (w : World J) :
  ctx_res context = None \/
  (exists r, ctx_res context = Some r /\ res_headers r = None) ->
  onResponse p context w = (w, Ok tt).
Proof.
  intros [E|[r [E Hh]]]; unfold onResponse, storeSetCookiesFromResponse;
    rewrite E; [reflexivity|]. by rewrite Hh.
Qed.

(** C2: ingestion never throws; on a live jar every deduplicated value of
    the response is passed to [setCookie] in turn whether or not earlier
    ones failed, and each failure is reported as one console warning. *)
Theorem storeSetCookiesFromResponse_isolates_failures
    (jar : loc) (url : string) (res : option Response) (w : World J) :
  (exists w', storeSetCookiesFromResponse jar url res w = (w', Ok tt)) /\
  (forall j, heap w !! jar = Some j ->
     storeSetCookiesFromResponse jar url res w =
     (mkWorld (<[jar := stored_all url j (setCookieValuesOf res)]> (heap w))
        (console w ++ warnings_of url j (setCookieValuesOf res)),
      Ok tt)).
Proof.
  rewrite storeSetCookiesFromResponse_loop. split.
  - apply for_of_storeOne_total.
  - intros j Hj. by apply for_of_storeOne_live.
Qed.


End HookTheorems.


(** ** Jars by reference: independent and shared plugin instances *)

Section SharingFacts.
Context {J : Type} `{CookieJar J}.

Lemma storeOne_dead jar url value (w : World J) :
  heap w !! jar = None ->
  heap (storeOne jar url value w).1 = heap w.
Proof.
  intros Hj. unfold storeOne, try_catch, jar_setCookie. by rewrite Hj.
Qed.

Lemma for_of_storeOne_dead jar url values (w : World J) :
  heap w !! jar = None ->
  heap (for_of values (storeOne jar url) w).1 = heap w.
Proof.
  revert w. induction values as [|value rest IH]; intros w Hj; simpl.
  - reflexivity.
  - unfold bind.
    pose proof (storeOne_dead jar url value w Hj) as Hd.
    destruct (storeOne_total jar url value w) as [w1 E].
    rewrite E in Hd |- *. simpl in Hd.
    rewrite IH; [done|]. by rewrite Hd.
Qed.

(** An operation through a plugin touches only the jar the plugin refers
    to, and what it does there depends only on that jar. *)
Lemma run_op_heap (p : Plugin) (op : Op) (w : World J) :
  heap (run_op p op w) =
  match heap w !! plugin_jar p with
  | Some j => <[plugin_jar p := jar_effect op j]> (heap w)
  | None => heap w
  end.
Proof.
  destruct (heap w !! plugin_jar p) as [j|] eqn:Hj.
  - destruct op as [context|context|url value|raw url|url]; simpl.
    + unfold onRequest. destruct (ctx_req context) as [req|]; simpl.
      * unfold bind. rewrite (jar_getCookieString_live _ _ _ _ Hj).
        destruct (getCookieString _ j).2 as [jarCookie|e]; simpl; [|done].
        by destruct (Js.truthy jarCookie).
      * by rewrite insert_id.
    + unfold onResponse. rewrite storeSetCookiesFromResponse_loop.
      by rewrite (for_of_storeOne_live _ _ _ _ _ Hj).
    + by rewrite (storeOne_live _ _ _ _ _ Hj).
    + by rewrite (jar_setCookie_live _ _ _ _ _ Hj).
    + by rewrite (jar_getCookieString_live _ _ _ _ Hj).
  - destruct op as [context|context|url value|raw url|url]; simpl.
    + unfold onRequest. destruct (ctx_req context) as [req|]; simpl; [|done].
      unfold bind, jar_getCookieString. by rewrite Hj.
    + unfold onResponse. rewrite storeSetCookiesFromResponse_loop.
      by apply for_of_storeOne_dead.
    + by apply storeOne_dead.
    + unfold jar_setCookie. by rewrite Hj.
    + unfold jar_getCookieString. by rewrite Hj.
Qed.

Lemma run_schedule_cons p1 p2 (step : bool * Op) schedule (w : World J) :
  run_schedule p1 p2 (step :: schedule) w =
  run_schedule p1 p2 schedule (run_op (if step.1 then p1 else p2) step.2 w).
Proof. reflexivity. Qed.

Lemma issued_by_cons who who' (op : Op) rest :
  issued_by who ((who', op) :: rest) =
  if decide (who' = who) then op :: issued_by who rest else issued_by who rest.
Proof.
  unfold issued_by. rewrite filter_cons. simpl. by case_decide.
Qed.

(** Two plugins over distinct jars: each jar sees its own client's
    operations and nothing else. *)
Lemma run_schedule_separate p1 p2 schedule (w : World J) j1 j2 :
  plugin_jar p1 <> plugin_jar p2 ->
  heap w !! plugin_jar p1 = Some j1 ->
  heap w !! plugin_jar p2 = Some j2 ->
  observed p1 (run_schedule p1 p2 schedule w)
    = Some (effects_of (issued_by true schedule) j1) /\
  observed p2 (run_schedule p1 p2 schedule w)
    = Some (effects_of (issued_by false schedule) j2).
Proof.
  intros Hne. revert w j1 j2.
  induction schedule as [|[who op] rest IH]; intros w j1 j2 H1 H2.
  - by split.
  - rewrite run_schedule_cons, !issued_by_cons.
    destruct who; simpl.
    + apply IH; rewrite run_op_heap, H1.
      * apply lookup_insert_eq.
      * by rewrite lookup_insert_ne.
    + apply IH; rewrite run_op_heap, H2.
      * by rewrite lookup_insert_ne.
      * apply lookup_insert_eq.
Qed.

(** Two plugins over one jar: the jar sees every operation of both
    clients, in commit order. *)
Lemma run_schedule_shared p1 p2 schedule (w : World J) j :
  plugin_jar p1 = plugin_jar p2 ->
  heap w !! plugin_jar p1 = Some j ->
  observed p1 (run_schedule p1 p2 schedule w)
    = Some (effects_of (schedule.*2) j).
Proof.
  intros Heq. revert w j.
  induction schedule as [|[who op] rest IH]; intros w j Hj.
  - done.
  - rewrite run_schedule_cons. simpl. apply IH.
    destruct who; simpl; rewrite run_op_heap.
    + rewrite Hj. apply lookup_insert_eq.
    + rewrite <- Heq, Hj. apply lookup_insert_eq.
Qed.

(** C4: two plugins constructed without the [jar] option get two distinct
    fresh jars (none that existed before), and under every interleaving of
    operations each client's jar reflects its own operations only; two
    plugins constructed with the same jar reference observe one jar, which
    reflects every operation of both clients in commit order. *)
Theorem cookieJarPlugin_isolation_and_sharing (w : World J) :
  (exists p1 w1 p2 w2,
     cookieJarPlugin (mkOptions None) w = (w1, Ok p1) /\
     cookieJarPlugin (mkOptions None) w1 = (w2, Ok p2) /\
     (plugin_jar p1 ∉ dom (heap w)) /\
     (plugin_jar p2 ∉ dom (heap w)) /\
     plugin_jar p1 <> plugin_jar p2 /\
     (forall l, l ∈ dom (heap w) -> heap w2 !! l = heap w !! l) /\
     forall schedule,
       observed p1 (run_schedule p1 p2 schedule w2)
         = Some (effects_of (issued_by true schedule) newCookieJar) /\
       observed p2 (run_schedule p1 p2 schedule w2)
         = Some (effects_of (issued_by false schedule) newCookieJar)) /\
  (forall sharedJar j,
     heap w !! sharedJar = Some j ->
     exists p1 p2,
       cookieJarPlugin (mkOptions (Some sharedJar)) w = (w, Ok p1) /\
       cookieJarPlugin (mkOptions (Some sharedJar)) w = (w, Ok p2) /\
       plugin_jar p1 = sharedJar /\ plugin_jar p2 = sharedJar /\
       forall schedule,
         observed p1 (run_schedule p1 p2 schedule w)
           = Some (effects_of (schedule.*2) j) /\
         observed p2 (run_schedule p1 p2 schedule w)
           = observed p1 (run_schedule p1 p2 schedule w)).
Proof.
  split.
  - set (l1 := fresh (dom (heap w))).
    set (h1 := <[l1 := newCookieJar]> (heap w)).
    set (l2 := fresh (dom h1)).
    assert (F1 : l1 ∉ dom (heap w)) by apply is_fresh.
    assert (F2 : l2 ∉ dom h1) by apply is_fresh.
    assert (Hne : l1 <> l2).
    { intros E. apply F2. rewrite <- E. unfold h1.
      rewrite dom_insert_L. set_solver. }
    exists (mkPlugin "cookie-jar" l1), (mkWorld h1 (console w)),
           (mkPlugin "cookie-jar" l2),
           (mkWorld (<[l2 := newCookieJar]> h1) (console w)).
    split; [reflexivity|]. split; [reflexivity|].
    split; [exact F1|].
    split; [intros Hin; apply F2; unfold h1; rewrite dom_insert_L; set_solver|].
    split; [exact Hne|].
    split.
    + intros l Hl. simpl. unfold h1.
      rewrite !lookup_insert_ne; [done| |]; intros <-; [done|].
      apply F2. unfold h1. rewrite dom_insert_L. set_solver.
    + intros schedule. apply run_schedule_separate; simpl; [done| |].
      * rewrite lookup_insert_ne by done. unfold h1. apply lookup_insert_eq.
      * apply lookup_insert_eq.
  - intros sharedJar j Hj.
    exists (mkPlugin "cookie-jar" sharedJar), (mkPlugin "cookie-jar" sharedJar).
    split; [reflexivity|]. split; [reflexivity|].
    split; [reflexivity|]. split; [reflexivity|].
    intros schedule. split; [|reflexivity].
    by apply run_schedule_shared.
Qed.

End SharingFacts.

(** ** The cookie engine *)

Module EngineFacts.
Import Engine EngineSpec.

(** *** Ordering of the selected cookies *)

Lemma precedes_spec a b : precedes a b = true <-> ordered_before a b.
Proof.
  unfold precedes, ordered_before.
  rewrite orb_true_iff, andb_true_iff, Nat.ltb_lt, Nat.eqb_eq, Z.leb_le.
  reflexivity.
Qed.

Lemma precedes_total a b : precedes a b = false -> ordered_before b a.
Proof.
  unfold precedes, ordered_before.
  rewrite orb_false_iff, andb_false_iff, Nat.ltb_ge, Nat.eqb_neq, Z.leb_gt.
  lia.
Qed.

Lemma ordered_before_trans a b c :
  ordered_before a b -> ordered_before b c -> ordered_before a c.
Proof. unfold ordered_before. lia. Qed.

Lemma insert_sorted_perm c l : insert_sorted c l ≡ₚ c :: l.
Proof.
  induction l as [|o rest IH]; simpl; [done|].
  destruct (precedes c o); [done|].
  rewrite IH. apply Permutation_swap.
Qed.

Lemma sort_cookies_perm l : sort_cookies l ≡ₚ l.
Proof.
  induction l as [|c rest IH]; simpl; [done|].
  by rewrite insert_sorted_perm, IH.
Qed.

Lemma insert_sorted_sorted c l :
  StronglySorted ordered_before l ->
  StronglySorted ordered_before (insert_sorted c l).
Proof.
  induction 1 as [|o rest Hs IH Ho]; simpl.
  - repeat constructor.
  - destruct (precedes c o) eqn:E.
    + apply precedes_spec in E.
      constructor; [by constructor|].
      constructor; [done|].
      eapply Forall_impl; [exact Ho|].
      intros x Hx. by eapply ordered_before_trans.
    + apply precedes_total in E.
      constructor; [done|].
      rewrite insert_sorted_perm. by constructor.
Qed.

Lemma sort_cookies_sorted l : StronglySorted ordered_before (sort_cookies l).
Proof.
  induction l as [|c rest IH]; simpl; [constructor|].
  by apply insert_sorted_sorted.
Qed.

Lemma elem_of_select u now st c :
  c ∈ select u now st <-> c ∈ st /\ visible u now c = true.
Proof.
  unfold select. rewrite sort_cookies_perm, list_elem_of_filter. tauto.
Qed.

(** C6: what [getCookies] returns is sorted with longer paths first and,
    for equal path lengths, earlier creation first; it holds exactly the
    visible cookies, and [getCookieString] serializes it in that order.  In
    particular, after [name=root; Path=/] and [name=api; Path=/api] are set
    for one host, a query under [/api] returns both, [/api] first. *)
Theorem getCookies_longer_path_then_earlier_creation :
  (forall url now st cs st',
     getCookies url now st = Done (cs, st') ->
     StronglySorted ordered_before cs /\
     (exists u, parse_url url = Some u /\
                cs ≡ₚ filter (fun c => visible u now c = true) st) /\
     getCookieString url now st = Done (serialize cs, st')) /\
  (forall parseDate now1 now2 now3,
     exists st1 st2 api root,
       setCookie parseDate "name=root; Path=/" "http://localhost:4203" now1 []
         = Done st1 /\
       setCookie parseDate "name=api; Path=/api" "http://localhost:4203" now2 st1
         = Done st2 /\
       getCookies "http://localhost:4203/api/anything" now3 st2
         = Done ([api; root], st2) /\
       (name api, value api, path api) = ("name", "api", "/api") /\
       (name root, value root, path root) = ("name", "root", "/") /\
       getCookieString "http://localhost:4203/api/anything" now3 st2
         = Done ("name=api; name=root", st2)).
Proof.
  split.
  - intros url now st cs st' Hg. unfold getCookieString. rewrite Hg.
    unfold getCookies in Hg. destruct (parse_url url) as [u|]; [|done].
    inversion Hg; subst. split; [apply sort_cookies_sorted|].
    split; [|done]. exists u. split; [done|]. apply sort_cookies_perm.
  - intros parseDate now1 now2 now3.
    do 4 eexists. vm_compute. repeat split.
Qed.

(** *** Keys, replacement and removal in the store *)

Lemma same_key_true a b : same_key a b = true <-> key a = key b.
Proof. unfold same_key. apply bool_decide_eq_true. Qed.

Lemma same_key_false a b : same_key a b = false <-> key a <> key b.
Proof. unfold same_key. apply bool_decide_eq_false. Qed.

Lemma same_key_congr a b b' : key b = key b' -> same_key a b = same_key a b'.
Proof. unfold same_key. by intros ->. Qed.

Lemma elem_of_remove_key c st o :
  o ∈ remove_key c st <-> o ∈ st /\ key o <> key c.
Proof.
  unfold remove_key. rewrite list_elem_of_filter, same_key_false. tauto.
Qed.

Lemma remove_key_idem c st : remove_key c (remove_key c st) = remove_key c st.
Proof.
  unfold remove_key. induction st as [|o rest IH]; [done|].
  rewrite filter_cons. case_decide as E; [|exact IH].
  rewrite filter_cons, decide_True by done. by rewrite IH.
Qed.

Lemma remove_key_congr c c' st : key c = key c' -> remove_key c st = remove_key c' st.
Proof.
  intros Hk. unfold remove_key. apply list_filter_iff.
  intros o. by rewrite (same_key_congr o c c' Hk).
Qed.

Lemma remove_key_keys c st :
  (key <$> remove_key c st) `sublist_of` (key <$> st).
Proof. unfold remove_key. apply fmap_sublist, sublist_filter. Qed.

(** Upserting the same cookie again changes nothing. *)
Lemma upsert_idem c st : upsert c (upsert c st) = upsert c st.
Proof.
  induction st as [|o rest IH]; simpl.
  - assert (E : same_key c c = true) by by apply same_key_true.
    rewrite E. by destruct c.
  - destruct (same_key o c) eqn:E; simpl.
    + assert (E' : same_key
          (mkCookie (name c) (value c) (domain c) (hostOnly c) (path c)
             (secure c) (httpOnly c) (sameSite c) (expiry c)
             (creationTime o) (lastAccessTime c)) c = true)
        by by apply same_key_true.
      by rewrite E'.
    + by rewrite E, IH.
Qed.

Lemma upsert_keys c st :
  key <$> upsert c st =
  if decide (key c ∈ key <$> st) then key <$> st
  else ((key <$> st) ++ [key c])%list.
Proof.
  induction st as [|o rest IH]; [done|].
  cbn [upsert]. destruct (same_key o c) eqn:E; rewrite !fmap_cons.
  - apply same_key_true in E.
    rewrite decide_True by (rewrite E; left).
    f_equal. by rewrite E.
  - apply same_key_false in E. rewrite IH.
    destruct (decide (key c ∈ key <$> rest)) as [Hin|Hout].
    + rewrite decide_True; [done | by right].
    + rewrite decide_False; [done|].
      intros [?|?]%elem_of_cons; congruence.
Qed.

Lemma upsert_NoDup_keys c st :
  NoDup (key <$> st) -> NoDup (key <$> upsert c st).
Proof.
  intros Hnd. rewrite upsert_keys. case_decide; [done|].
  apply NoDup_app. split; [done|]. split; [|apply NoDup_singleton].
  intros k Hk ->%list_elem_of_singleton. done.
Qed.

(** A second write under the same key, differing at most in expiry and
    bookkeeping times, changes nothing else. *)
Lemma upsert_again c c2 st :
  key c2 = key c -> value c2 = value c -> hostOnly c2 = hostOnly c ->
  secure c2 = secure c -> httpOnly c2 = httpOnly c ->
  sameSite c2 = sameSite c ->
  stable_part <$> upsert c2 (upsert c st) = stable_part <$> upsert c st.
Proof.
  intros Hk Hv Hh Hs Ho Hss.
  assert (Hfields : forall t,
    stable_part (mkCookie (name c2) (value c2) (domain c2) (hostOnly c2)
                   (path c2) (secure c2) (httpOnly c2) (sameSite c2)
                   (expiry c2) t (lastAccessTime c2)) =
    stable_part (mkCookie (name c) (value c) (domain c) (hostOnly c)
                   (path c) (secure c) (httpOnly c) (sameSite c)
                   (expiry c) t (lastAccessTime c))).
  { intros t. unfold stable_part, key in *. simpl. congruence. }
  induction st as [|o rest IH]; cbn [upsert].
  - assert (E : same_key c c2 = true) by by apply same_key_true.
    rewrite E. rewrite !fmap_cons, Hfields. by destruct c.
  - destruct (same_key o c) eqn:E; cbn [upsert].
    + assert (E' : same_key
          (mkCookie (name c) (value c) (domain c) (hostOnly c) (path c)
             (secure c) (httpOnly c) (sameSite c) (expiry c)
             (creationTime o) (lastAccessTime c)) c2 = true)
        by by apply same_key_true.
      rewrite E'. rewrite !fmap_cons. f_equal. apply Hfields.
    + rewrite (same_key_congr o c2 c Hk), E. rewrite !fmap_cons.
      by rewrite IH.
Qed.

(** *** Parsing at different instants *)

Section ParseFacts.
Variable parseDate : string -> option Z.

Lemma parse_times raw u now c :
  parse parseDate raw u now = inr c ->
  expiry c = expiry_of (attributes parseDate raw) now /\
  creationTime c = now /\ lastAccessTime c = now.
Proof.
  unfold parse, attributes.
  destruct (split_all ";" raw) as [|first segments]; [done|]. simpl tail.
  destruct (parse_pair first) as [e|[n v]]; [done|].
  destruct (a_domain _) as [d|]; [destruct (domain_match _ d)|];
    intros [= <-]; done.
Qed.

Lemma parse_at_other_time raw u now now2 c :
  parse parseDate raw u now = inr c ->
  parse parseDate raw u now2 =
  inr (mkCookie (name c) (value c) (domain c) (hostOnly c) (path c)
         (secure c) (httpOnly c) (sameSite c)
         (expiry_of (attributes parseDate raw) now2) now2 now2).
Proof.
  unfold parse, attributes.
  destruct (split_all ";" raw) as [|first segments]; [done|]. simpl tail.
  destruct (parse_pair first) as [e|[n v]]; [done|].
  destruct (a_domain _) as [d|]; [destruct (domain_match _ d)|];
    intros [= <-]; done.
Qed.

Lemma expired_parse raw u now c :
  parse parseDate raw u now = inr c ->
  expired now c = expires_by parseDate raw now.
Proof.
  intros Hp. destruct (parse_times _ _ _ _ Hp) as (He & _ & _).
  unfold expired, expires_by. by rewrite He.
Qed.

Lemma marked_for_removal_expires raw now :
  marked_for_removal parseDate raw now -> expires_by parseDate raw now = true.
Proof.
  unfold marked_for_removal, expires_by, expiry_of.
  intros [->|[-> (t & -> & Ht)]]; apply Z.leb_le; lia.
Qed.

Lemma expires_by_later raw now now2 :
  (now <= now2)%Z ->
  expires_by parseDate raw now = true -> expires_by parseDate raw now2 = true.
Proof.
  unfold expires_by, expiry_of. intros Hle.
  destruct (a_maxAge _) as [n|]; [|destruct (a_expires _) as [t|]];
    rewrite ?Z.leb_le; [lia|lia|done].
Qed.

(** What [setCookie] does once the URL and the raw string are accepted. *)
Lemma setCookie_done raw url now st st1 :
  setCookie parseDate raw url now st = Done st1 ->
  exists u c,
    parse_url url = Some u /\ parse parseDate raw u now = inr c /\
    st1 = if expires_by parseDate raw now then remove_key c st else upsert c st.
Proof.
  unfold setCookie. destruct (parse_url url) as [u|]; [|done].
  destruct (parse parseDate raw u now) as [e|c] eqn:Hp; [done|].
  rewrite (expired_parse _ _ _ _ Hp).
  intros E. exists u, c. split; [done|]. split; [done|].
  destruct (expires_by parseDate raw now); by inversion E.
Qed.

(** C5: a successful [setCookie] whose raw string carries [Max-Age=0], or
    an [Expires] date in the past and no Max-Age, leaves no entry under the
    cookie's (domain, path, name) key: the store is the old one less that
    key, and no later [getCookies] or [getCookieString], for any URL and at
    any instant, returns a cookie with that key. *)
Theorem setCookie_expired_removes_the_key raw url now st st1 :
  setCookie parseDate raw url now st = Done st1 ->
  marked_for_removal parseDate raw now ->
  exists u c,
    parse_url url = Some u /\ parse parseDate raw u now = inr c /\
    (forall o, o ∈ st1 <-> o ∈ st /\ key o <> key c) /\
    forall url' now' cs st2,
      getCookies url' now' st1 = Done (cs, st2) ->
      (forall o, o ∈ cs -> key o <> key c) /\
      (forall o, o ∈ st2 -> key o <> key c) /\
      getCookieString url' now' st1 = Done (serialize cs, st2).
Proof.
  intros Hset Hm.
  destruct (setCookie_done _ _ _ _ _ Hset) as (u & c & Hu & Hp & ->).
  rewrite (marked_for_removal_expires _ _ Hm).
  exists u, c. split; [done|]. split; [done|].
  split; [intros o; apply elem_of_remove_key|].
  intros url' now' cs st2 Hg.
  unfold getCookieString. rewrite Hg.
  unfold getCookies in Hg. destruct (parse_url url') as [u'|]; [|done].
  inversion Hg; subst. split; [|split; [|done]].
  - intros o [Ho _]%elem_of_select. by apply elem_of_remove_key in Ho as [_ ?].
  - intros o Ho. unfold removeExpired in Ho.
    apply list_elem_of_filter in Ho as [_ Ho].
    by apply elem_of_remove_key in Ho as [_ ?].
Qed.

(** C7: a successful [setCookie] repeated with the same raw string and URL
    leaves the store as the first call left it: at the same instant the two
    stores are equal; keys stay unique; at a later instant, with the cookie
    unexpired, the entry is replaced in place, so that keys, values, flags
    and creationTime of every entry are those after the first call (only
    expiry and lastAccessTime are refreshed); and a repeated removal removes
    nothing more. *)
Theorem setCookie_twice_same_as_once raw url now st st1 :
  setCookie parseDate raw url now st = Done st1 ->
  setCookie parseDate raw url now st1 = Done st1 /\
  (NoDup (key <$> st) -> NoDup (key <$> st1)) /\
  (forall now2,
     expires_by parseDate raw now = false ->
     expires_by parseDate raw now2 = false ->
     exists st2,
       setCookie parseDate raw url now2 st1 = Done st2 /\
       stable_part <$> st2 = stable_part <$> st1) /\
  (forall now2,
     expires_by parseDate raw now = true -> (now <= now2)%Z ->
     setCookie parseDate raw url now2 st1 = Done st1).
Proof.
  intros Hset.
  destruct (setCookie_done _ _ _ _ _ Hset) as (u & c & Hu & Hp & ->).
  assert (Hstep : forall now2,
    setCookie parseDate raw url now2
       (if expires_by parseDate raw now then remove_key c st else upsert c st) =
    let c2 := mkCookie (name c) (value c) (domain c) (hostOnly c) (path c)
                (secure c) (httpOnly c) (sameSite c)
                (expiry_of (attributes parseDate raw) now2) now2 now2 in
    Done (if expires_by parseDate raw now2
          then remove_key c2 (if expires_by parseDate raw now
                              then remove_key c st else upsert c st)
          else upsert c2 (if expires_by parseDate raw now
                          then remove_key c st else upsert c st))).
  { intros now2. unfold setCookie. rewrite Hu.
    pose proof (parse_at_other_time _ _ _ now2 _ Hp) as Hp2.
    rewrite Hp2, (expired_parse _ _ _ _ Hp2). simpl.
    by destruct (expires_by parseDate raw now2). }
  assert (Hc : mkCookie (name c) (value c) (domain c) (hostOnly c) (path c)
                 (secure c) (httpOnly c) (sameSite c)
                 (expiry_of (attributes parseDate raw) now) now now = c).
  { destruct (parse_times _ _ _ _ Hp) as (He & Hcr & Hla).
    destruct c; simpl in *. by subst. }
  split; [|split; [|split]].
  - rewrite Hstep. simpl. rewrite Hc.
    destruct (expires_by parseDate raw now).
    + by rewrite remove_key_idem.
    + by rewrite upsert_idem.
  - intros Hnd. destruct (expires_by parseDate raw now).
    + eapply sublist_NoDup; [exact Hnd | apply remove_key_keys].
    + by apply upsert_NoDup_keys.
  - intros now2 Hlive Hlive2. rewrite Hstep, Hlive, Hlive2. simpl.
    eexists. split; [reflexivity|]. by apply upsert_again.
  - intros now2 Hdead Hle. rewrite Hstep, Hdead.
    rewrite (expires_by_later _ _ _ Hle Hdead). simpl.
    rewrite (remove_key_congr _ c) by done. by rewrite remove_key_idem.
Qed.

End ParseFacts.

End EngineFacts.


(** ** The test-suite scenarios, run through the theorems *)

Module ScenarioFacts.
Import Scenario.

(** The merge scenario: the jar holds [jar_cookie=from_jar] and the caller
    sends [Cookie: manual_cookie=from_header]. *)
Lemma onRequest_appends_jar_after_manual_cookie_witness :
  ctx_req manual_context = Some manual_request /\
  heap (world_with jar_store) !! plugin_jar the_plugin = Some jar_store /\
  existingCookieOf (default ∅ (req_headers manual_request))
    = "manual_cookie=from_header" /\
  (getCookieString (resolveAbsoluteUrl manual_context) jar_store).2
    = Ok "jar_cookie=from_jar" /\
  exists w' req' headers',
    onRequest the_plugin manual_context (world_with jar_store) =
      (w', Ok (mkContext (ctx_url manual_context) (Some req')
                 (ctx_client manual_context) (ctx_res manual_context))) /\
    req_url req' = req_url manual_request /\
    req_baseURL req' = req_baseURL manual_request /\
    req_headers req' = Some headers' /\
    headers' !! "Cookie" =
      Some (existingCookieOf (default ∅ (req_headers manual_request))
            +:+ "; " +:+ "jar_cookie=from_jar") /\
    (forall k, k <> "Cookie" ->
               headers' !! k = default ∅ (req_headers manual_request) !! k).
Proof.
  split; [reflexivity|]. split; [reflexivity|].
  split; [reflexivity|]. split; [vm_compute; reflexivity|].
  apply (onRequest_appends_jar_after_manual_cookie
           the_plugin manual_context (world_with jar_store) manual_request
           jar_store "jar_cookie=from_jar").
  - reflexivity.
  - reflexivity.
  - vm_compute. discriminate.
  - vm_compute. reflexivity.
  - discriminate.
Defined.

(** The header actually sent in the merge scenario. *)
Example merge_with_manual_header :
  match (onRequest the_plugin manual_context (world_with jar_store)).2 with
  | Ok c => ctx_req c ≫= req_headers
  | Throw _ => None
  end = Some {[ "Cookie" := "manual_cookie=from_header; jar_cookie=from_jar" ]}.
Proof. vm_compute. reflexivity. Qed.

(** An empty jar yields the empty string and the request is left alone. *)
Lemma onRequest_empty_jar_string_keeps_request_witness :
  ctx_req plain_context = Some plain_request /\
  heap (world_with []) !! plugin_jar the_plugin = Some [] /\
  (getCookieString (resolveAbsoluteUrl plain_context) []).2 = Ok EmptyString /\
  exists w',
    onRequest the_plugin plain_context (world_with []) = (w', Ok plain_context) /\
    console w' = console (world_with []).
Proof.
  split; [reflexivity|]. split; [reflexivity|]. split; [reflexivity|].
  apply (onRequest_empty_jar_string_keeps_request
           the_plugin plain_context (world_with []) plain_request []);
    reflexivity.
Defined.

(** A response without headers leaves the jar as it was. *)
Lemma onResponse_without_headers_is_noop_witness :
  (ctx_res bare_context = Some bare_response /\ res_headers bare_response = None) /\
  onResponse the_plugin bare_context (world_with jar_store)
    = (world_with jar_store, Ok tt).
Proof.
  split; [split; reflexivity|].
  apply (onResponse_without_headers_is_noop
           the_plugin bare_context (world_with jar_store)).
  right. exists bare_response. split; reflexivity.
Defined.

(** The malformed-input scenario on a live jar. *)
Lemma storeSetCookiesFromResponse_isolates_failures_witness :
  heap (world_with []) !! the_jar = Some [] /\
  storeSetCookiesFromResponse the_jar BASE_URL (Some mixed_response)
    (world_with []) =
  (mkWorld
     (<[the_jar := stored_all BASE_URL []
                     (setCookieValuesOf (Some mixed_response))]>
        (heap (world_with [])))
     (console (world_with [])
      ++ warnings_of BASE_URL [] (setCookieValuesOf (Some mixed_response))),
   Ok tt).
Proof.
  split; [reflexivity|].
  apply (proj2 (storeSetCookiesFromResponse_isolates_failures
                  the_jar BASE_URL (Some mixed_response) (world_with [])) []).
  reflexivity.
Defined.

(** [malformed] is reported, [session=abc123] is stored, nothing escapes. *)
Example malformed_input_isolation :
  let '(w, r) := onResponse the_plugin mixed_context (world_with []) in
  r = Ok tt /\
  console w = ["[cookie-jar] Failed to store cookie: Cookie failed to parse"] /\
  (heap w !! the_jar ≫= fun st =>
     match Engine.getCookieString BASE_URL today st with
     | Engine.Done (s, _) => Some s
     | Engine.Failed _ => None
     end) = Some "session=abc123".
Proof. vm_compute. repeat split. Qed.


(** The first occurrence is the one kept. *)
Example first_occurrences_keeps_first :
  first_occurrences ["a=1"; "a=2"; "a=1"; "b=3"; "a=2"] = ["a=1"; "a=2"; "b=3"].
Proof. vm_compute. reflexivity. Qed.

(** A Node-like array of [res.raw.headers] is stored after the accessor's
    values. *)
Example node_like_array_is_stored :
  setCookieValuesOf
    (Some (mkResponse (Some (HeadersGet (Some "a=1; Path=/")))
             (Some (mkRawResponse
                      (Some {[ "set-cookie" := HArray ["b=2; Path=/"; "a=1; Path=/"] ]})))
             None))
  = ["a=1; Path=/"; "b=2; Path=/"].
Proof. vm_compute. reflexivity. Qed.


(** With the engine as jar, the second occurrence is lost on that path and
    kept when the same occurrences come through [getSetCookie()]. *)
Example joined_occurrences_lose_second_cookie :
  let sent (res : Response) :=
    heap (onResponse the_plugin (context_with res) (world_with [])).1
      !! the_jar ≫= fun st =>
        match Engine.getCookieString BASE_URL today st with
        | Engine.Done (s, _) => Some s
        | Engine.Failed _ => None
        end in
  sent two_via_get = Some "a=1" /\
  sent two_via_getSetCookie = Some "a=1; b=2".
Proof. vm_compute. split; reflexivity. Qed.

(** The duplicate occurrence is stored once. *)
Example duplicate_occurrence_ignored :
  setCookieValuesOf (Some mixed_response) = ["malformed"; "session=abc123; Path=/"].
Proof. vm_compute. reflexivity. Qed.

(** Two plugins built on the jar of the scenario share it. *)
Lemma cookieJarPlugin_isolation_and_sharing_witness :
  heap (world_with jar_store) !! the_jar = Some jar_store /\
  exists p1 p2,
    cookieJarPlugin (mkOptions (Some the_jar)) (world_with jar_store)
      = (world_with jar_store, Ok p1) /\
    cookieJarPlugin (mkOptions (Some the_jar)) (world_with jar_store)
      = (world_with jar_store, Ok p2) /\
    plugin_jar p1 = the_jar /\ plugin_jar p2 = the_jar /\
    forall schedule,
      observed p1 (run_schedule p1 p2 schedule (world_with jar_store))
        = Some (effects_of (schedule.*2) jar_store) /\
      observed p2 (run_schedule p1 p2 schedule (world_with jar_store))
        = observed p1 (run_schedule p1 p2 schedule (world_with jar_store)).
Proof.
  split; [reflexivity|].
  apply (proj2 (cookieJarPlugin_isolation_and_sharing (world_with jar_store))
           the_jar jar_store).
  reflexivity.
Defined.

(** Client 1 stores a cookie through the response hook; client 2, on the
    same jar, sends it; with separate jars it does not. *)
Example shared_jar_is_seen_by_both :
  let w := world_with [] in
  let p1 := the_plugin in
  let p2 := the_plugin in
  let w' := run_schedule p1 p2 [(true, OpResponse mixed_context)] w in
  (observed p2 w' ≫= fun st =>
     match Engine.getCookieString BASE_URL today st with
     | Engine.Done (s, _) => Some s
     | Engine.Failed _ => None
     end) = Some "session=abc123".
Proof. vm_compute. reflexivity. Qed.

(** The relative request URL of the scenario is joined to the base. *)
Lemma resolveAbsoluteUrl_rule_witness :
  ResolvedUrl manual_context "http://localhost:4203/echo-cookies" /\
  "http://localhost:4203/echo-cookies" = resolveAbsoluteUrl manual_context.
Proof.
  assert (R : ResolvedUrl manual_context "http://localhost:4203/echo-cookies").
  { apply (resolved_joined manual_context "http://localhost:4203" "echo-cookies").
    - left. reflexivity.
    - intros [[t E]|[t E]]; vm_compute in E; discriminate.
    - vm_compute. discriminate.
    - apply JsFacts.trailing_slash_removed_iff. reflexivity.
    - left. reflexivity. }
  split; [exact R|].
  apply (proj2 (resolveAbsoluteUrl_rule manual_context)
           "http://localhost:4203/echo-cookies" R).
Defined.

Example resolve_keeps_absolute_request_url :
  resolveAbsoluteUrl
    (mkContext None
       (Some (mkRequest (Some "https://api.example.com/login")
                (Some "http://localhost:4203/") None))
       None None)
  = "https://api.example.com/login".
Proof. reflexivity. Qed.

Example resolve_joins_with_one_slash :
  resolveAbsoluteUrl
    (mkContext None
       (Some (mkRequest (Some "/echo-cookies") (Some "http://localhost:4203/") None))
       None None)
  = "http://localhost:4203/echo-cookies".
Proof. reflexivity. Qed.

Import Engine EngineSpec EngineFacts.

(** The path-specificity scenario, through the general ordering result. *)
Lemma getCookies_longer_path_then_earlier_creation_witness :
  getCookies under_api today two_paths_store
    = Done (cookies_under_api, two_paths_store) /\
  StronglySorted ordered_before cookies_under_api /\
  (exists u, parse_url under_api = Some u /\
             cookies_under_api ≡ₚ
               filter (fun c => visible u today c = true) two_paths_store) /\
  getCookieString under_api today two_paths_store
    = Done (serialize cookies_under_api, two_paths_store).
Proof.
  split; [vm_compute; reflexivity|].
  apply (proj1 getCookies_longer_path_then_earlier_creation
           under_api today two_paths_store cookies_under_api two_paths_store).
  vm_compute. reflexivity.
Defined.

(** The deletion scenario: the server answers [deleteme=; Path=/; Max-Age=0]. *)
Lemma setCookie_expired_removes_the_key_witness :
  Engine.setCookie noDates "deleteme=; Path=/; Max-Age=0" BASE_URL today
    deleteme_store = Done jar_store /\
  marked_for_removal noDates "deleteme=; Path=/; Max-Age=0" today /\
  exists u c,
    parse_url BASE_URL = Some u /\
    parse noDates "deleteme=; Path=/; Max-Age=0" u today = inr c /\
    (forall o, o ∈ jar_store <-> o ∈ deleteme_store /\ key o <> key c) /\
    forall url' now' cs st2,
      getCookies url' now' jar_store = Done (cs, st2) ->
      (forall o, o ∈ cs -> key o <> key c) /\
      (forall o, o ∈ st2 -> key o <> key c) /\
      Engine.getCookieString url' now' jar_store = Done (serialize cs, st2).
Proof.
  split; [vm_compute; reflexivity|].
  split; [left; vm_compute; reflexivity|].
  apply (setCookie_expired_removes_the_key noDates
           "deleteme=; Path=/; Max-Age=0" BASE_URL today deleteme_store jar_store).
  - vm_compute. reflexivity.
  - left. vm_compute. reflexivity.
Defined.

Example deleted_cookie_is_not_sent :
  Engine.getCookieString BASE_URL today deleteme_store
    = Done ("jar_cookie=from_jar; deleteme=value", deleteme_store) /\
  Engine.getCookieString BASE_URL today jar_store
    = Done ("jar_cookie=from_jar", jar_store).
Proof. vm_compute. split; reflexivity. Qed.

(** Writing [jar_cookie=from_jar; Path=/] again changes nothing. *)
Lemma setCookie_twice_same_as_once_witness :
  Engine.setCookie noDates "jar_cookie=from_jar; Path=/" BASE_URL today []
    = Done jar_store /\
  Engine.setCookie noDates "jar_cookie=from_jar; Path=/" BASE_URL today jar_store
    = Done jar_store /\
  (NoDup (key <$> []) -> NoDup (key <$> jar_store)) /\
  (forall now2,
     expires_by noDates "jar_cookie=from_jar; Path=/" today = false ->
     expires_by noDates "jar_cookie=from_jar; Path=/" now2 = false ->
     exists st2,
       Engine.setCookie noDates "jar_cookie=from_jar; Path=/" BASE_URL now2
         jar_store = Done st2 /\
       stable_part <$> st2 = stable_part <$> jar_store) /\
  (forall now2,
     expires_by noDates "jar_cookie=from_jar; Path=/" today = true ->
     (today <= now2)%Z ->
     Engine.setCookie noDates "jar_cookie=from_jar; Path=/" BASE_URL now2
       jar_store = Done jar_store).
Proof.
  split; [vm_compute; reflexivity|].
  apply (setCookie_twice_same_as_once noDates
           "jar_cookie=from_jar; Path=/" BASE_URL today [] jar_store).
  vm_compute. reflexivity.
Defined.

(** A later rewrite refreshes the Max-Age expiry and keeps creationTime. *)
Example later_rewrite_keeps_creation_time :
  match Engine.setCookie noDates "sid=1; Path=/; Max-Age=60" BASE_URL 10 [] with
  | Done st1 =>
      match Engine.setCookie noDates "sid=1; Path=/; Max-Age=60" BASE_URL 25 st1 with
      | Done st2 =>
          (creationTime <$> st1, expiry <$> st1,
           creationTime <$> st2, expiry <$> st2)
      | Failed _ => ([], [], [], [])
      end
  | Failed _ => ([], [], [], [])
  end = ([10%Z], [ExpiresAt 70], [10%Z], [ExpiresAt 85]).
Proof. vm_compute. reflexivity. Qed.

End ScenarioFacts.


(** * Further properties of the plugin *)

(** ** The request hook beyond the merge *)

Section RequestHookMore.
Context {J : Type} `{CookieJar J}.
Import Js JsFacts.

Lemma append_nonempty_r (a b : string) : b <> EmptyString -> a +:+ b <> EmptyString.
Proof. destruct a; simpl; [done | discriminate]. Qed.

(** The world after the request hook, whatever the outcome. *)
Lemma onRequest_world (p : Plugin) (context : Context) (w : World J) :
  (onRequest p context w).1 =
  match ctx_req context, heap w !! plugin_jar p with
  | Some _, Some j =>
      mkWorld (<[plugin_jar p :=
                   (getCookieString (resolveAbsoluteUrl context) j).1]> (heap w))
        (console w)
  | _, _ => w
  end.
Proof.
  unfold onRequest. destruct (ctx_req context) as [req|]; [|done].
  unfold bind. destruct (heap w !! plugin_jar p) as [j|] eqn:Hj.
  - rewrite (jar_getCookieString_live _ _ _ _ Hj).
    destruct (getCookieString _ j).2 as [s|e]; [|done].
    by destruct (truthy s).
  - unfold jar_getCookieString. by rewrite Hj.
Qed.

(** X1: with no caller-supplied cookie (neither [Cookie] nor [cookie], or
    only empty ones) and a non-empty jar string, the hook sets [Cookie] to
    the jar string alone, with no separator, and keeps the other headers. *)
Theorem onRequest_sets_jar_string_alone
    (p : Plugin) (context : Context) (w : World J) (req : Request) (j : J)
    (jarCookie : string) :
  ctx_req context = Some req ->
  heap w !! plugin_jar p = Some j ->
  existingCookieOf (default ∅ (req_headers req)) = EmptyString ->
  (getCookieString (resolveAbsoluteUrl context) j).2 = Ok jarCookie ->
  jarCookie <> EmptyString ->
  (onRequest p context w).2 =
  Ok (mkContext (ctx_url context)
        (Some (mkRequest (req_url req) (req_baseURL req)
                 (Some (<["Cookie" := jarCookie]> (default ∅ (req_headers req))))))
        (ctx_client context) (ctx_res context)).
Proof.
  intros Hreq Hj Hex Hjar Hne.
  unfold onRequest. rewrite Hreq. unfold bind.
  rewrite (jar_getCookieString_live _ _ _ _ Hj), Hjar.
  apply truthy_true in Hne as ->. by rewrite Hex.
Qed.

(** X2: a caller cookie given only under the lower-case key [cookie] is
    the value the merge starts from; the hook adds a [Cookie] key with the
    merged value and leaves the [cookie] key as it was, so the caller's
    value ends up under both spellings. *)
Theorem onRequest_lowercase_cookie_is_merged_and_kept
    (p : Plugin) (context : Context) (w : World J) (req : Request) (j : J)
    (headers : gmap string string) (manual jarCookie : string) :
  ctx_req context = Some req ->
  req_headers req = Some headers ->
  heap w !! plugin_jar p = Some j ->
  (headers !! "Cookie" = None \/ headers !! "Cookie" = Some EmptyString) ->
  headers !! "cookie" = Some manual ->
  manual <> EmptyString ->
  (getCookieString (resolveAbsoluteUrl context) j).2 = Ok jarCookie ->
  jarCookie <> EmptyString ->
  exists w' context' req' headers',
    onRequest p context w = (w', Ok context') /\
    ctx_req context' = Some req' /\
    req_headers req' = Some headers' /\
    headers' !! "Cookie" = Some (manual +:+ "; " +:+ jarCookie) /\
    headers' !! "cookie" = Some manual.
Proof.
  intros Hreq Hh Hj Hup Hlow Hm Hjar Hne.
  assert (Hex : existingCookieOf headers = manual).
  { unfold existingCookieOf. rewrite Hlow.
    apply truthy_true in Hm.
    destruct Hup as [->| ->]; simpl; by rewrite Hm. }
  unfold onRequest. rewrite Hreq, Hh. unfold bind. simpl.
  rewrite (jar_getCookieString_live _ _ _ _ Hj), Hjar.
  apply truthy_true in Hne as ->. rewrite Hex.
  apply truthy_true in Hm as ->.
  do 4 eexists. split; [reflexivity|]. simpl.
  split; [reflexivity|]. split; [reflexivity|]. split.
  - apply lookup_insert_eq.
  - by rewrite lookup_insert_ne.
Qed.

(** X3: when both spellings are present and non-empty, the hook merges
    the value under [Cookie] only; the value under [cookie] is neither
    merged nor changed. *)
Theorem onRequest_prefers_capitalised_cookie
    (p : Plugin) (context : Context) (w : World J) (req : Request) (j : J)
    (headers : gmap string string) (upper lower jarCookie : string) :
  ctx_req context = Some req ->
  req_headers req = Some headers ->
  heap w !! plugin_jar p = Some j ->
  headers !! "Cookie" = Some upper ->
  upper <> EmptyString ->
  headers !! "cookie" = Some lower ->
  (getCookieString (resolveAbsoluteUrl context) j).2 = Ok jarCookie ->
  jarCookie <> EmptyString ->
  exists w' context' req' headers',
    onRequest p context w = (w', Ok context') /\
    ctx_req context' = Some req' /\
    req_headers req' = Some headers' /\
    headers' !! "Cookie" = Some (upper +:+ "; " +:+ jarCookie) /\
    headers' !! "cookie" = Some lower.
Proof.
  intros Hreq Hh Hj Hup Hu Hlow Hjar Hne.
  assert (Hex : existingCookieOf headers = upper)
    by by apply existingCookieOf_Cookie.
  unfold onRequest. rewrite Hreq, Hh. unfold bind. simpl.
  rewrite (jar_getCookieString_live _ _ _ _ Hj), Hjar.
  apply truthy_true in Hne as ->. rewrite Hex.
  apply truthy_true in Hu as ->.
  do 4 eexists. split; [reflexivity|]. simpl.
  split; [reflexivity|]. split; [reflexivity|]. split.
  - apply lookup_insert_eq.
  - by rewrite lookup_insert_ne.
Qed.

(** X4: on a live jar the request hook fails in exactly two cases: the
    context has no request object, or the jar rejects [getCookieString];
    with a request object, it fails with exactly the jar's message. *)
Theorem onRequest_failure_cases
    (p : Plugin) (context : Context) (w : World J) (j : J) :
  heap w !! plugin_jar p = Some j ->
  ((exists e, (onRequest p context w).2 = Throw e) <->
   ctx_req context = None \/
   exists e, (getCookieString (resolveAbsoluteUrl context) j).2 = Throw e) /\
  (is_Some (ctx_req context) ->
   forall e,
     (onRequest p context w).2 = Throw e <->
     (getCookieString (resolveAbsoluteUrl context) j).2 = Throw e).
Proof.
  intros Hj. unfold onRequest.
  destruct (ctx_req context) as [req|]; simpl.
  - unfold bind. rewrite (jar_getCookieString_live _ _ _ _ Hj).
    destruct (getCookieString _ j).2 as [s|e'] eqn:E; simpl.
    + split.
      * split.
        -- intros [e He]. destruct (truthy s); discriminate.
        -- intros [?|[e ?]]; discriminate.
      * intros _ e. destruct (truthy s); split; discriminate.
    + split.
      * split; [intros _; right; by exists e' | intros _; by exists e'].
      * intros _ e. split; intros [= ->]; reflexivity.
  - split.
    + split; [intros _; by left | intros _; by eexists].
    + intros [? ?]. discriminate.
Qed.

(** X5: the request hook never prints, never creates or removes a jar,
    and never touches a jar other than the one its plugin refers to,
    whatever the context and whether it succeeds or fails. *)
Theorem onRequest_frame (p : Plugin) (context : Context) (w : World J) :
  console (onRequest p context w).1 = console w /\
  dom (heap (onRequest p context w).1) = dom (heap w) /\
  (forall l, l <> plugin_jar p ->
             heap (onRequest p context w).1 !! l = heap w !! l).
Proof.
  rewrite onRequest_world.
  destruct (ctx_req context) as [req|]; [|done].
  destruct (heap w !! plugin_jar p) as [j|] eqn:Hj; [|done]. simpl.
  split; [done|]. split.
  - rewrite dom_insert_L. apply elem_of_dom_2 in Hj. set_solver.
  - intros l Hl. by rewrite lookup_insert_ne.
Qed.

(** X6: the hook is not idempotent on its own output: run again on the
    context it returned (as a retry that reuses the request would), it
    appends the jar's string once more after the header it wrote before. *)
Theorem onRequest_twice_appends_twice
    (p : Plugin) (context : Context) (w : World J) (req : Request)
    (j j1 j2 : J) (s1 s2 : string) :
  ctx_req context = Some req ->
  heap w !! plugin_jar p = Some j ->
  getCookieString (resolveAbsoluteUrl context) j = (j1, Ok s1) ->
  s1 <> EmptyString ->
  getCookieString (resolveAbsoluteUrl context) j1 = (j2, Ok s2) ->
  s2 <> EmptyString ->
  exists w1 context1 first,
    onRequest p context w = (w1, Ok context1) /\
    ((ctx_req context1 ≫= req_headers) ≫= (.!! "Cookie")) = Some first /\
    exists w2 context2 req2 headers2,
      onRequest p context1 w1 = (w2, Ok context2) /\
      ctx_req context2 = Some req2 /\
      req_headers req2 = Some headers2 /\
      headers2 !! "Cookie" = Some (first +:+ "; " +:+ s2).
Proof.
  intros Hreq Hj Hg1 Hs1 Hg2 Hs2.
  set (headers := default ∅ (req_headers req)).
  set (first := if truthy (existingCookieOf headers)
                then existingCookieOf headers +:+ "; " +:+ s1
                else s1).
  assert (Hfirst : first <> EmptyString).
  { unfold first. destruct (truthy _); [|done].
    apply append_nonempty_r. by apply append_nonempty_r. }
  set (context1 :=
         mkContext (ctx_url context)
           (Some (mkRequest (req_url req) (req_baseURL req)
                    (Some (<["Cookie" := first]> headers))))
           (ctx_client context) (ctx_res context)).
  assert (Hurl : resolveAbsoluteUrl context1 = resolveAbsoluteUrl context).
  { unfold resolveAbsoluteUrl, context1. simpl. by rewrite Hreq. }
  assert (Hex : existingCookieOf (<["Cookie" := first]> headers) = first).
  { apply existingCookieOf_Cookie; [apply lookup_insert_eq | done]. }
  exists (mkWorld (<[plugin_jar p := j1]> (heap w)) (console w)), context1, first.
  split; [|split].
  - unfold onRequest. rewrite Hreq. unfold bind.
    rewrite (jar_getCookieString_live _ _ _ _ Hj), Hg1. simpl.
    apply truthy_true in Hs1 as ->. reflexivity.
  - simpl. apply lookup_insert_eq.
  - unfold onRequest. rewrite Hurl. simpl. unfold bind.
    erewrite jar_getCookieString_live; [|apply lookup_insert_eq].
    rewrite Hg2. simpl. apply truthy_true in Hs2 as ->.
    fold headers. rewrite Hex. apply truthy_true in Hfirst as ->.
    do 4 eexists. split; [reflexivity|]. simpl.
    split; [reflexivity|]. split; [reflexivity|].
    apply lookup_insert_eq.
Qed.

End RequestHookMore.

(** ** The response hook beyond failure isolation *)

Section ResponseHookMore.
Context {J : Type} `{CookieJar J}.
Import Js JsFacts.

Lemma storeOne_grows jar url value (w : World J) :
  exists w' extra,
    storeOne jar url value w = (w', Ok tt) /\
    console w' = (console w ++ extra)%list /\
    (forall l, l <> jar -> heap w' !! l = heap w !! l) /\
    dom (heap w') = dom (heap w).
Proof.
  destruct (heap w !! jar) as [j|] eqn:Hj.
  - rewrite (storeOne_live _ _ _ _ _ Hj). do 2 eexists.
    split; [reflexivity|]. simpl. split; [reflexivity|]. split.
    + intros l Hl. by rewrite lookup_insert_ne.
    + rewrite dom_insert_L. apply elem_of_dom_2 in Hj. set_solver.
  - unfold storeOne, try_catch, jar_setCookie. rewrite Hj.
    unfold console_warn. do 2 eexists. split; [reflexivity|]. by simpl.
Qed.

Lemma for_of_storeOne_grows jar url values (w : World J) :
  exists w' extra,
    for_of values (storeOne jar url) w = (w', Ok tt) /\
    console w' = (console w ++ extra)%list /\
    (forall l, l <> jar -> heap w' !! l = heap w !! l) /\
    dom (heap w') = dom (heap w).
Proof.
  revert w. induction values as [|value rest IH]; intros w; simpl.
  - exists w, []. split; [done|]. by rewrite app_nil_r.
  - unfold bind.
    destruct (storeOne_grows jar url value w)
      as (w1 & e1 & -> & Hc1 & Hf1 & Hd1).
    destruct (IH w1) as (w2 & e2 & -> & Hc2 & Hf2 & Hd2).
    exists w2, (e1 ++ e2)%list. split; [done|].
    split; [by rewrite Hc2, Hc1, app_assoc|].
    split; [|by rewrite Hd2].
    intros l Hl. by rewrite Hf2, Hf1.
Qed.

(** X7: the response hook always returns normally, whatever the context
    and the jar do; it only appends to the console, creates or removes no
    jar, and touches no jar other than the one its plugin refers to. *)
Theorem onResponse_frame (p : Plugin) (context : Context) (w : World J) :
  exists w',
    onResponse p context w = (w', Ok tt) /\
    console w `prefix_of` console w' /\
    dom (heap w') = dom (heap w) /\
    (forall l, l <> plugin_jar p -> heap w' !! l = heap w !! l).
Proof.
  unfold onResponse. rewrite storeSetCookiesFromResponse_loop.
  destruct (for_of_storeOne_grows (plugin_jar p) (resolveAbsoluteUrl context)
              (setCookieValuesOf (ctx_res context)) w)
    as (w' & extra & -> & Hc & Hf & Hd).
  exists w'. split; [done|]. split; [by exists extra|]. by split.
Qed.

Lemma warnings_of_length url (j : J) values :
  length (warnings_of url j values) <= length values.
Proof.
  revert j. induction values as [|value rest IH]; intros j; simpl; [done|].
  rewrite length_app. specialize (IH (setCookie value url j).1).
  destruct (setCookie value url j).2; simpl; lia.
Qed.

Lemma warnings_of_shape url (j : J) values :
  Forall (fun m => exists e,
            m = "[cookie-jar] Failed to store cookie: " +:+ e)
    (warnings_of url j values).
Proof.
  revert j. induction values as [|value rest IH]; intros j; simpl; [done|].
  apply Forall_app. split; [|apply IH].
  destruct (setCookie value url j).2 as [e|]; simpl; [|done].
  constructor; [by exists e | done].
Qed.

Lemma warnings_of_none url (j : J) values :
  (forall value j', value ∈ values -> (setCookie value url j').2 = None) ->
  warnings_of url j values = [].
Proof.
  revert j. induction values as [|value rest IH]; intros j Hok; simpl; [done|].
  rewrite Hok by left. simpl. apply IH.
  intros v j' Hv. apply Hok. by right.
Qed.

(** X8: on a live jar the response hook prints at most one line per
    collected value, each line starts with the plugin's prefix, and when
    the jar accepts every value of the response nothing is printed. *)
Theorem onResponse_warnings
    (p : Plugin) (context : Context) (w : World J) (j : J) :
  heap w !! plugin_jar p = Some j ->
  exists printed,
    console (onResponse p context w).1 = (console w ++ printed)%list /\
    length printed <= length (setCookieValuesOf (ctx_res context)) /\
    Forall (fun m => exists e,
              m = "[cookie-jar] Failed to store cookie: " +:+ e) printed /\
    ((forall value j', value ∈ setCookieValuesOf (ctx_res context) ->
                       (setCookie value (resolveAbsoluteUrl context) j').2 = None) ->
     printed = []).
Proof.
  intros Hj. unfold onResponse.
  rewrite storeSetCookiesFromResponse_loop, (for_of_storeOne_live _ _ _ _ _ Hj).
  eexists. split; [reflexivity|].
  split; [apply warnings_of_length|].
  split; [apply warnings_of_shape|]. apply warnings_of_none.
Qed.

(** X9: when the response exposes no Set-Cookie value (a headers object
    whose accessor yields nothing or which has no accessor, and no
    non-empty Node-like array) the hook makes no jar call and prints
    nothing: the world is exactly what it was. *)
Theorem onResponse_nothing_to_store
    (p : Plugin) (context : Context) (w : World J) (r : Response)
    (rawHeaders : RawHeaders) :
  ctx_res context = Some r ->
  res_headers r = Some rawHeaders ->
  (rawHeaders = HeadersOther \/ rawHeaders = HeadersGet None \/
   rawHeaders = HeadersGet (Some EmptyString) \/
   rawHeaders = HeadersGetSetCookie []) ->
  (forall values, maybeArrayOf r = Some (HArray values) -> values = []) ->
  onResponse p context w = (w, Ok tt).
Proof.
  intros Hr Hh Hshape Harr. unfold onResponse.
  rewrite storeSetCookiesFromResponse_loop. unfold setCookieValuesOf.
  rewrite Hr, Hh.
  assert (E : collectSetCookieValues r rawHeaders = []).
  { unfold collectSetCookieValues.
    destruct (maybeArrayOf r) as [[values|s]|].
    - rewrite (Harr values eq_refl), app_nil_r.
      by destruct Hshape as [->|[->|[->| ->]]].
    - by destruct Hshape as [->|[->|[->| ->]]].
    - by destruct Hshape as [->|[->|[->| ->]]]. }
  by rewrite E.
Qed.

Lemma deduplicate_singleton x : deduplicate [x] = [x].
Proof.
  unfold deduplicate. simpl. rewrite decide_False; [done | set_solver].
Qed.

(** X10: on the [get()] path the string returned by [get('set-cookie')]
    is handed to the jar as one value in a single [setCookie] call: it is
    never split, whatever it contains. *)
Theorem onResponse_get_path_stores_one_value
    (p : Plugin) (context : Context) (w : World J) (r : Response)
    (single : string) (j : J) :
  ctx_res context = Some r ->
  res_headers r = Some (HeadersGet (Some single)) ->
  single <> EmptyString ->
  (forall values, maybeArrayOf r <> Some (HArray values)) ->
  heap w !! plugin_jar p = Some j ->
  onResponse p context w =
  (mkWorld
     (<[plugin_jar p := (setCookie single (resolveAbsoluteUrl context) j).1]>
        (heap w))
     (console w
      ++ warning_of (setCookie single (resolveAbsoluteUrl context) j).2)%list,
   Ok tt).
Proof.
  intros Hr Hh Hs Harr Hj. unfold onResponse.
  rewrite storeSetCookiesFromResponse_loop, (for_of_storeOne_live _ _ _ _ _ Hj).
  unfold setCookieValuesOf. rewrite Hr, Hh.
  assert (E : collectSetCookieValues r (HeadersGet (Some single)) = [single]).
  { unfold collectSetCookieValues. apply truthy_true in Hs as ->.
    destruct (maybeArrayOf r) as [[values|s]|]; [|done|done].
    by specialize (Harr values). }
  rewrite E, deduplicate_singleton. simpl. by rewrite app_nil_r.
Qed.

(** X11: a truthy ['set-cookie'] entry of [res.raw.headers] shadows
    [res.meta]: the collected values do not depend on [res.meta]; and when
    that entry is a string rather than an array, nothing is collected from
    the Node-like fields at all. *)
Theorem raw_set_cookie_shadows_meta
    (r : Response) (rawHeaders : RawHeaders) (v : HeaderValue) :
  (res_raw r ≫= raw_headers) ≫= (.!! "set-cookie") = Some v ->
  header_truthy v = true ->
  (forall meta,
     collectSetCookieValues (mkResponse (res_headers r) (res_raw r) meta)
       rawHeaders
     = collectSetCookieValues r rawHeaders) /\
  (forall s, v = HString s ->
     collectSetCookieValues r rawHeaders
     = collectSetCookieValues (mkResponse (res_headers r) None None)
         rawHeaders).
Proof.
  intros Hraw Ht. split.
  - intros meta. unfold collectSetCookieValues, maybeArrayOf, header_or.
    simpl. by rewrite Hraw, Ht.
  - intros s ->. unfold collectSetCookieValues, maybeArrayOf, header_or.
    simpl. by rewrite Hraw, Ht.
Qed.

End ResponseHookMore.

(** ** Deduplication, order and overlap of the sources *)

Section DedupMore.

Lemma dedupe_from_union (seen hidden : gset string) values :
  dedupe_from (seen ∪ hidden) values =
  dedupe_from seen (filter (fun v => v ∉ hidden) values).
Proof.
  revert seen. induction values as [|value rest IH]; intros seen; [done|].
  rewrite filter_cons. cbn [dedupe_from].
  destruct (decide (value ∉ hidden)) as [Hout|Hin].
  - cbn [dedupe_from]. destruct (decide (value ∈ seen)) as [Hs|Hs].
    + rewrite decide_True by set_solver. apply IH.
    + rewrite decide_False by set_solver. f_equal.
      rewrite <- IH. f_equal. set_solver.
  - rewrite decide_True; [apply IH|].
    destruct (decide (value ∈ hidden)); [set_solver | done].
Qed.

Lemma dedupe_from_app (seen : gset string) l k :
  dedupe_from seen (l ++ k)%list =
  (dedupe_from seen l ++ dedupe_from (seen ∪ list_to_set l) k)%list.
Proof.
  revert seen. induction l as [|x l IH]; intros seen; simpl.
  - f_equal. set_solver.
  - destruct (decide (x ∈ seen)) as [Hs|Hs].
    + rewrite IH. do 2 f_equal. set_solver.
    + simpl. rewrite IH. do 3 f_equal. set_solver.
Qed.

Lemma dedupe_from_covered (seen : gset string) k :
  (forall v, v ∈ k -> v ∈ seen) -> dedupe_from seen k = [].
Proof.
  induction k as [|x k IH]; intros Hk; simpl; [done|].
  rewrite decide_True by (apply Hk; left).
  apply IH. intros v Hv. apply Hk. by right.
Qed.

Lemma dedupe_from_NoDup_id (seen : gset string) l :
  NoDup l -> (forall v, v ∈ l -> v ∉ seen) -> dedupe_from seen l = l.
Proof.
  intros Hnd. revert seen.
  induction Hnd as [|x l Hx Hnd IH]; intros seen Hs; simpl; [done|].
  rewrite decide_False by (apply Hs; left). f_equal.
  apply IH. intros v Hv. specialize (Hs v (list_elem_of_further _ _ _ Hv)).
  assert (v <> x) by (intros ->; done). set_solver.
Qed.

(** X12: the filter keeps the first occurrence of every value and drops
    the later ones: the head is kept and the tail is deduplicated after
    every copy of the head has been removed from it. *)
Theorem deduplicate_keeps_first_occurrence (value : string) (rest : list string) :
  deduplicate (value :: rest) =
  value :: deduplicate (filter (fun v => v <> value) rest).
Proof.
  unfold deduplicate. cbn [dedupe_from].
  rewrite decide_False by set_solver. f_equal.
  replace ({[value]} ∪ ∅ : gset string) with (∅ ∪ {[value]} : gset string)
    by set_solver.
  rewrite dedupe_from_union. f_equal.
  apply list_filter_iff. intros v. set_solver.
Qed.

(** X13: the filter changes nothing exactly on lists without duplicates,
    and running it twice is the same as running it once. *)
Theorem deduplicate_fixpoints (values : list string) :
  (deduplicate values = values <-> NoDup values) /\
  deduplicate (deduplicate values) = deduplicate values.
Proof.
  assert (Hid : forall l : list string, NoDup l -> deduplicate l = l).
  { intros l Hl. apply dedupe_from_NoDup_id; [done | set_solver]. }
  split; [split|].
  - intros <-. apply NoDup_dedupe_from.
  - apply Hid.
  - apply Hid, NoDup_dedupe_from.
Qed.

(** X14: when the same response is seen through both shapes, the values
    of [getSetCookie()] and then a Node-like array repeating some of them,
    the values stored are those of [getSetCookie()] alone, deduplicated:
    the second source adds nothing. *)
Theorem overlapping_sources_store_once
    (r : Response) (all again : list string) :
  res_headers r = Some (HeadersGetSetCookie all) ->
  maybeArrayOf r = Some (HArray again) ->
  again ⊆ all ->
  setCookieValuesOf (Some r) = deduplicate all.
Proof.
  intros Hh Ha Hsub. unfold setCookieValuesOf, collectSetCookieValues.
  rewrite Hh, Ha. unfold deduplicate. rewrite dedupe_from_app.
  rewrite (dedupe_from_covered _ again), app_nil_r; [done|].
  intros v Hv. apply Hsub in Hv. set_solver.
Qed.

End DedupMore.

(** ** URL resolution beyond the four cases *)

Section ResolveMore.
Import Js JsFacts.

Lemma not_absolute_slash r : ~ is_absolute ("/" +:+ r).
Proof. intros [[t E]|[t E]]; simpl in E; discriminate. Qed.

Lemma startsWith_false r :
  ~ is_absolute r ->
  startsWith r "http://" || startsWith r "https://" = false.
Proof.
  intros Hr. destruct (startsWith r "http://" || startsWith r "https://") eqn:E;
    [|done]. by apply is_absolute_iff in E.
Qed.

(** X15: a trailing slash on the base and a leading slash on the request
    URL make no difference: for a base not ending in [/] and a relative
    request URL not starting with [/], all four spellings resolve to the
    base, one slash, and the request URL. *)
Theorem resolveAbsoluteUrl_slash_insensitive
    (base rel : string) (slashBase slashRel : bool)
    (headers : option (gmap string string)) (client : option Client)
    (res : option Response) :
  base <> EmptyString ->
  (forall q, base <> q +:+ "/") ->
  (forall q, rel <> "/" +:+ q) ->
  ~ is_absolute rel ->
  resolveAbsoluteUrl
    (mkContext None
       (Some (mkRequest (Some (if slashRel then "/" +:+ rel else rel))
                (Some (if slashBase then base +:+ "/" else base)) headers))
       client res)
  = base +:+ "/" +:+ rel.
Proof.
  intros Hb Hbs Hrs Hr.
  assert (Hbase : replaceTrailingSlash base = base).
  { symmetry. apply trailing_slash_removed_iff. right. by split. }
  assert (Hrel : replaceLeadingSlash rel = rel).
  { symmetry. apply leading_slash_removed_iff. right. by split. }
  assert (Hb' : truthy (base +:+ "/") = true).
  { apply truthy_true. destruct base; simpl; discriminate. }
  apply truthy_true in Hb as Hbt.
  unfold resolveAbsoluteUrl. simpl.
  destruct slashRel, slashBase; simpl.
  - rewrite Hb'. simpl. rewrite Hb'. simpl.
    by rewrite replaceTrailingSlash_app_slash.
  - rewrite Hbt. simpl. rewrite Hbt. simpl. by rewrite Hbase.
  - destruct rel as [|c rel'] eqn:Erel.
    + simpl. rewrite Hb'. simpl. rewrite Hb'. simpl.
      by rewrite replaceTrailingSlash_app_slash.
    + rewrite <- Erel in *. 
      assert (truthy rel = true) as -> by by subst.
      rewrite (startsWith_false _ Hr), Hb'. simpl. rewrite Hb'. simpl.
      by rewrite replaceTrailingSlash_app_slash, Hrel.
  - destruct rel as [|c rel'] eqn:Erel.
    + simpl. rewrite Hbt. simpl. rewrite Hbt. simpl. by rewrite Hbase.
    + rewrite <- Erel in *.
      assert (truthy rel = true) as -> by by subst.
      rewrite (startsWith_false _ Hr), Hbt. simpl. rewrite Hbt. simpl.
      by rewrite Hbase, Hrel.
Qed.

(** X16: a non-empty [req.baseURL] takes precedence over the client's
    configured base URL: the result does not depend on the client. *)
Theorem resolveAbsoluteUrl_request_base_wins
    (url : option string) (req : Request) (client client' : option Client)
    (res : option Response) (base : string) :
  req_baseURL req = Some base ->
  base <> EmptyString ->
  resolveAbsoluteUrl (mkContext url (Some req) client res)
  = resolveAbsoluteUrl (mkContext url (Some req) client' res).
Proof.
  intros Hb Hne. apply truthy_true in Hne.
  unfold resolveAbsoluteUrl. simpl. by rewrite Hb; simpl; rewrite Hne.
Qed.

(** X17: without [context.url] and without a request URL (no request
    object, no [url] property, or an empty one) the hook resolves to the
    base less one trailing slash followed by [/]; with no base either, to
    the empty string. *)
Theorem resolveAbsoluteUrl_without_request_url (context : Context) :
  url_unset context ->
  requestUrlOf context = EmptyString ->
  resolveAbsoluteUrl context =
  if truthy (baseURLOf context)
  then replaceTrailingSlash (baseURLOf context) +:+ "/"
  else EmptyString.
Proof.
  intros Hu Hr. unfold resolveAbsoluteUrl.
  fold (requestUrlOf context). fold (baseURLOf context).
  rewrite (resolve_unset _ Hu), Hr. simpl.
  by destruct (truthy (baseURLOf context)).
Qed.

End ResolveMore.

(** ** Constructing and attaching the plugin *)

Section AttachMore.
Context {J : Type} `{CookieJar J}.

(** X18: constructing the plugin never fails, prints nothing and leaves
    the existing jars as they are; once attached, [client.jar] is the jar
    the hooks use and it is live whenever the jar passed in the options
    (if any) was; without the option it is a new jar in its initial state. *)
Theorem cookieJarPlugin_then_onAttach
    (options : CookieJarPluginOptions) (w : World J) (client : Client) :
  (forall l, opt_jar options = Some l -> is_Some (heap w !! l)) ->
  exists w' p,
    cookieJarPlugin options w = (w', Ok p) /\
    plugin_name p = "cookie-jar" /\
    console w' = console w /\
    (forall l, is_Some (heap w !! l) -> heap w' !! l = heap w !! l) /\
    client_jar (onAttach p client) = Some (plugin_jar p) /\
    client_config (onAttach p client) = client_config client /\
    is_Some (heap w' !! plugin_jar p) /\
    (opt_jar options = None ->
     heap w !! plugin_jar p = None /\
     heap w' !! plugin_jar p = Some newCookieJar).
Proof.
  intros Hlive. unfold cookieJarPlugin.
  destruct (opt_jar options) as [l|] eqn:E.
  - exists w, (mkPlugin "cookie-jar" l). repeat split; try done.
    by apply Hlive.
  - set (l := fresh (dom (heap w))).
    assert (Hl : heap w !! l = None).
    { apply not_elem_of_dom. apply is_fresh. }
    exists (mkWorld (<[l := newCookieJar]> (heap w)) (console w)),
           (mkPlugin "cookie-jar" l).
    split; [reflexivity|]. split; [done|]. split; [done|].
    split.
    { intros l' [x Hx]. simpl. rewrite lookup_insert_ne; [done|].
      intros <-. congruence. }
    split; [done|]. split; [done|]. simpl.
    split; [rewrite lookup_insert_eq; by eexists|].
    intros _. split; [done | apply lookup_insert_eq].
Qed.

End AttachMore.


(** ** The test runner's bookkeeping *)

Module TestRunnerFacts.
Import TestRunner.

(** The counters after the loop has run over [runs] from any state. *)
Lemma loop_counters (o : OverallResults) (runs : list SuiteRun) :
  let o' := foldl recordSuite o runs in
  totalSuites o' = totalSuites o /\
  passedSuites o' + failedSuites o' =
    passedSuites o + failedSuites o + length runs /\
  failedSuites o' =
    failedSuites o + length (filter (fun r => ~ clean r) runs) /\
  failedTests o' = failedTests o + sum_list (reported_failed <$> runs) /\
  totalTests o' = totalTests o + sum_list (reported_total <$> runs) /\
  length (suiteResults o') = length (suiteResults o) + length runs /\
  sum_list (sr_failed <$> suiteResults o') =
    sum_list (sr_failed <$> suiteResults o)
    + sum_list (reported_failed <$> runs)
    + length (filter (fun r => rejected r = true) runs).
Proof.
  revert o.
  induction runs as [|[n [results|m] d] rest IH]; intros o; cbn [foldl].
  - simpl. repeat split; lia.
  - destruct (IH (recordSuite o (mkSuiteRun n (Resolved results) d)))
      as (H1 & H2 & H3 & H4 & H5 & H6 & H7).
    cbv zeta. rewrite H1, H2, H3, H4, H5, H6, H7. clear IH H1 H2 H3 H4 H5 H6 H7.
    rewrite !filter_cons, !fmap_cons.
    rewrite (decide_False (P := rejected _ = true)) by done.
    unfold recordSuite. cbn [run_outcome run_name run_duration].
    cbn [totalSuites passedSuites failedSuites totalTests passedTests
         failedTests suiteResults reported_failed reported_total run_outcome].
    rewrite !fmap_app, !sum_list_with_app, !length_app.
    cbn [fmap list_fmap sum_list_with length]. cbn [sr_failed].
    destruct (Nat.eqb_spec (failed results) 0) as [E|E].
    + rewrite (decide_False (P := ~ clean _)) by (unfold clean; simpl; tauto).
      repeat split; simpl; lia.
    + rewrite (decide_True (P := ~ clean _)) by (unfold clean; simpl; tauto).
      repeat split; simpl; lia.
  - destruct (IH (recordSuite o (mkSuiteRun n (Rejected m) d)))
      as (H1 & H2 & H3 & H4 & H5 & H6 & H7).
    cbv zeta. rewrite H1, H2, H3, H4, H5, H6, H7. clear IH H1 H2 H3 H4 H5 H6 H7.
    rewrite !filter_cons, !fmap_cons.
    rewrite (decide_True (P := rejected _ = true)) by done.
    rewrite (decide_True (P := ~ clean _)) by (unfold clean; simpl; tauto).
    unfold recordSuite. cbn [run_outcome run_name run_duration].
    cbn [totalSuites passedSuites failedSuites totalTests passedTests
         failedTests suiteResults reported_failed reported_total run_outcome].
    rewrite !fmap_app, !sum_list_with_app, !length_app.
    cbn [fmap list_fmap sum_list_with length]. cbn [sr_failed].
    repeat split; simpl; lia.
Qed.

(** X19: every registered suite is counted exactly once, as passed or as
    failed, whether it ran or crashed, and the detailed results hold one
    row per suite. *)
Theorem runAllTests_counts_every_suite (runs : list SuiteRun) :
  totalSuites (runAllTests runs) = length runs /\
  passedSuites (runAllTests runs) + failedSuites (runAllTests runs)
    = length runs /\
  length (suiteResults (runAllTests runs)) = length runs.
Proof.
  unfold runAllTests.
  destruct (loop_counters (initialResults (length runs)) runs)
    as (H1 & H2 & _ & _ & _ & H6 & _).
  cbv zeta in *. simpl in *. by rewrite H1, H2, H6.
Qed.

Lemma no_unclean_iff (runs : list SuiteRun) :
  length (filter (fun r => ~ clean r) runs) = 0 <-> Forall clean runs.
Proof.
  rewrite length_zero_iff_nil. split.
  - intros Hnil. apply Forall_forall. intros r Hr.
    destruct (decide (clean r)) as [?|Hn]; [done|].
    assert (Hin : r ∈ filter (fun r => ~ clean r) runs)
      by by apply list_elem_of_filter.
    rewrite Hnil in Hin. by apply not_elem_of_nil in Hin.
  - intros Hall. induction Hall as [|r rest Hr _ IH]; [done|].
    rewrite filter_cons, decide_False by tauto. exact IH.
Qed.

Lemma clean_reported_failed (runs : list SuiteRun) :
  Forall clean runs -> sum_list (reported_failed <$> runs) = 0.
Proof.
  induction 1 as [|r rest Hr _ IH]; [done|].
  rewrite fmap_cons. simpl. rewrite IH.
  unfold clean, reported_failed in *.
  destruct (run_outcome r); [lia | done].
Qed.

(** X20: the runner exits with code 0 exactly when every suite ran to
    completion and reported no failed test; the second half of its test,
    [failedTests === 0], never decides anything. *)
Theorem runAllTests_exit_code (runs : list SuiteRun) :
  (exitCode (runAllTests runs) = 0%Z <-> Forall clean runs) /\
  overallSuccess (runAllTests runs)
    = (failedSuites (runAllTests runs) =? 0)%nat.
Proof.
  unfold runAllTests.
  destruct (loop_counters (initialResults (length runs)) runs)
    as (_ & _ & H3 & H4 & _ & _ & _).
  cbv zeta in *. simpl in *.
  set (o := foldl recordSuite (initialResults (length runs)) runs) in *.
  pose proof (no_unclean_iff runs) as Hclean.
  pose proof (clean_reported_failed runs) as Hsum.
  assert (Hsecond : overallSuccess o = (failedSuites o =? 0)%nat).
  { unfold overallSuccess.
    destruct (Nat.eqb_spec (failedSuites o) 0) as [E|E]; [|done]. simpl.
    apply Nat.eqb_eq. rewrite H4, Hsum; [done|].
    apply Hclean. lia. }
  split; [|exact Hsecond].
  unfold exitCode. rewrite Hsecond, <- Hclean.
  destruct (Nat.eqb_spec (failedSuites o) 0) as [E|E]; split; try done; lia.
Qed.

(** X21: the overall test counters add up what the suites that ran
    reported; a suite whose [run()] rejected is listed as one failed test
    in its own row but adds nothing to the overall counters, so the rows'
    failed tests exceed [failedTests] by the number of crashed suites. *)
Theorem runAllTests_test_counters (runs : list SuiteRun) :
  totalTests (runAllTests runs) = sum_list (reported_total <$> runs) /\
  failedTests (runAllTests runs) = sum_list (reported_failed <$> runs) /\
  sum_list (sr_failed <$> suiteResults (runAllTests runs)) =
    failedTests (runAllTests runs)
    + length (filter (fun r => rejected r = true) runs).
Proof.
  unfold runAllTests.
  destruct (loop_counters (initialResults (length runs)) runs)
    as (_ & _ & _ & H4 & H5 & _ & H7).
  cbv zeta in *. simpl in *. rewrite H4, H5, H7. lia.
Qed.

End TestRunnerFacts.

(** ** The further properties on the test-suite data *)

Module MoreScenarioFacts.
Import Scenario MoreScenario.

Lemma onRequest_sets_jar_string_alone_witness :
  existingCookieOf (default ∅ (req_headers plain_request)) = EmptyString /\
  (onRequest the_plugin plain_context (world_with jar_store)).2 =
  Ok (mkContext (ctx_url plain_context)
        (Some (mkRequest (req_url plain_request) (req_baseURL plain_request)
                 (Some (<["Cookie" := "jar_cookie=from_jar"]>
                          (default ∅ (req_headers plain_request))))))
        (ctx_client plain_context) (ctx_res plain_context)).
Proof.
  split; [reflexivity|].
  apply (onRequest_sets_jar_string_alone the_plugin plain_context
           (world_with jar_store) plain_request jar_store "jar_cookie=from_jar").
  - reflexivity.
  - reflexivity.
  - reflexivity.
  - vm_compute. reflexivity.
  - discriminate.
Defined.

Lemma onRequest_lowercase_cookie_is_merged_and_kept_witness :
  exists w' context' req' headers',
    onRequest the_plugin lowercase_context (world_with jar_store)
      = (w', Ok context') /\
    ctx_req context' = Some req' /\
    req_headers req' = Some headers' /\
    headers' !! "Cookie"
      = Some ("manual_cookie=from_header" +:+ "; " +:+ "jar_cookie=from_jar") /\
    headers' !! "cookie" = Some "manual_cookie=from_header".
Proof.
  apply (onRequest_lowercase_cookie_is_merged_and_kept the_plugin
           lowercase_context (world_with jar_store) lowercase_request jar_store
           {[ "cookie" := "manual_cookie=from_header" ]}
           "manual_cookie=from_header" "jar_cookie=from_jar").
  - reflexivity.
  - reflexivity.
  - reflexivity.
  - left. vm_compute. reflexivity.
  - vm_compute. reflexivity.
  - discriminate.
  - vm_compute. reflexivity.
  - discriminate.
Defined.

Lemma onRequest_prefers_capitalised_cookie_witness :
  exists w' context' req' headers',
    onRequest the_plugin both_context (world_with jar_store)
      = (w', Ok context') /\
    ctx_req context' = Some req' /\
    req_headers req' = Some headers' /\
    headers' !! "Cookie" = Some ("upper=1" +:+ "; " +:+ "jar_cookie=from_jar") /\
    headers' !! "cookie" = Some "lower=2".
Proof.
  apply (onRequest_prefers_capitalised_cookie the_plugin both_context
           (world_with jar_store) both_request jar_store both_headers
           "upper=1" "lower=2" "jar_cookie=from_jar").
  - reflexivity.
  - reflexivity.
  - reflexivity.
  - vm_compute. reflexivity.
  - discriminate.
  - vm_compute. reflexivity.
  - vm_compute. reflexivity.
  - discriminate.
Defined.

Lemma onRequest_failure_cases_witness :
  heap (world_with jar_store) !! plugin_jar the_plugin = Some jar_store /\
  ctx_req no_request_context = None /\
  exists e,
    (onRequest the_plugin no_request_context (world_with jar_store)).2 = Throw e.
Proof.
  split; [reflexivity|]. split; [reflexivity|].
  apply (proj2 (proj1 (onRequest_failure_cases the_plugin no_request_context
                         (world_with jar_store) jar_store eq_refl))).
  left. reflexivity.
Defined.

Lemma onRequest_twice_appends_twice_witness :
  exists w1 context1 first,
    onRequest the_plugin manual_context (world_with jar_store)
      = (w1, Ok context1) /\
    ((ctx_req context1 ≫= req_headers) ≫= (.!! "Cookie")) = Some first /\
    exists w2 context2 req2 headers2,
      onRequest the_plugin context1 w1 = (w2, Ok context2) /\
      ctx_req context2 = Some req2 /\
      req_headers req2 = Some headers2 /\
      headers2 !! "Cookie" = Some (first +:+ "; " +:+ "jar_cookie=from_jar").
Proof.
  apply (onRequest_twice_appends_twice the_plugin manual_context
           (world_with jar_store) manual_request jar_store jar_store jar_store
           "jar_cookie=from_jar" "jar_cookie=from_jar").
  - reflexivity.
  - reflexivity.
  - vm_compute. reflexivity.
  - discriminate.
  - vm_compute. reflexivity.
  - discriminate.
Defined.

(** What a second run of the hook sends in the merge scenario. *)
Example retry_on_same_context_duplicates_jar_cookie :
  match onRequest the_plugin manual_context (world_with jar_store) with
  | (w1, Ok context1) =>
      match (onRequest the_plugin context1 w1).2 with
      | Ok context2 => (ctx_req context2 ≫= req_headers) ≫= (.!! "Cookie")
      | Throw _ => None
      end
  | _ => None
  end = Some "manual_cookie=from_header; jar_cookie=from_jar; jar_cookie=from_jar".
Proof. vm_compute. reflexivity. Qed.

Lemma onResponse_warnings_witness :
  heap (world_with []) !! plugin_jar the_plugin = Some [] /\
  exists printed,
    console (onResponse the_plugin mixed_context (world_with [])).1
      = (console (world_with []) ++ printed)%list /\
    length printed <= length (setCookieValuesOf (ctx_res mixed_context)) /\
    Forall (fun m => exists e,
              m = "[cookie-jar] Failed to store cookie: " +:+ e) printed /\
    ((forall value j',
        value ∈ setCookieValuesOf (ctx_res mixed_context) ->
        (setCookie value (resolveAbsoluteUrl mixed_context) j').2 = None) ->
     printed = []).
Proof.
  split; [reflexivity|].
  apply (onResponse_warnings the_plugin mixed_context (world_with []) []).
  reflexivity.
Defined.

Lemma onResponse_nothing_to_store_witness :
  res_headers other_response = Some HeadersOther /\
  onResponse the_plugin other_context (world_with jar_store)
    = (world_with jar_store, Ok tt).
Proof.
  split; [reflexivity|].
  apply (onResponse_nothing_to_store the_plugin other_context
           (world_with jar_store) other_response HeadersOther).
  - reflexivity.
  - reflexivity.
  - left. reflexivity.
  - intros values E. vm_compute in E. discriminate.
Defined.

Lemma onResponse_get_path_stores_one_value_witness :
  onResponse the_plugin joined_context (world_with []) =
  (mkWorld
     (<[plugin_jar the_plugin :=
          (setCookie "a=1; Path=/, b=2; Path=/"
             (resolveAbsoluteUrl joined_context) []).1]>
        (heap (world_with [])))
     (console (world_with [])
      ++ warning_of (setCookie "a=1; Path=/, b=2; Path=/"
                       (resolveAbsoluteUrl joined_context) []).2)%list,
   Ok tt).
Proof.
  apply (onResponse_get_path_stores_one_value the_plugin joined_context
           (world_with []) joined_response "a=1; Path=/, b=2; Path=/" []).
  - reflexivity.
  - reflexivity.
  - discriminate.
  - intros values E. vm_compute in E. discriminate.
  - reflexivity.
Defined.

Lemma raw_set_cookie_shadows_meta_witness :
  (forall meta,
     collectSetCookieValues
       (mkResponse (res_headers raw_string_response)
          (res_raw raw_string_response) meta) HeadersOther
     = collectSetCookieValues raw_string_response HeadersOther) /\
  (forall s, HString "a=1; Path=/" = HString s ->
     collectSetCookieValues raw_string_response HeadersOther
     = collectSetCookieValues
         (mkResponse (res_headers raw_string_response) None None)
         HeadersOther).
Proof.
  apply (raw_set_cookie_shadows_meta raw_string_response HeadersOther
           (HString "a=1; Path=/")).
  - vm_compute. reflexivity.
  - reflexivity.
Defined.

(** The string entry hides the array of [meta]: nothing is stored. *)
Example raw_string_entry_stores_nothing :
  setCookieValuesOf (Some raw_string_response) = [].
Proof. vm_compute. reflexivity. Qed.

Lemma deduplicate_fixpoints_witness :
  NoDup ["a=1"; "b=2"] /\ deduplicate ["a=1"; "b=2"] = ["a=1"; "b=2"].
Proof.
  assert (Hnd : NoDup ["a=1"; "b=2"]).
  { apply NoDup_cons. split; [|apply NoDup_singleton].
    rewrite list_elem_of_singleton. discriminate. }
  split; [exact Hnd|].
  apply (proj2 (proj1 (deduplicate_fixpoints ["a=1"; "b=2"])) Hnd).
Defined.

Lemma overlapping_sources_store_once_witness :
  setCookieValuesOf (Some both_shapes_response)
    = deduplicate ["a=1; Path=/"; "b=2; Path=/"].
Proof.
  apply (overlapping_sources_store_once both_shapes_response
           ["a=1; Path=/"; "b=2; Path=/"] ["b=2; Path=/"; "a=1; Path=/"]).
  - reflexivity.
  - vm_compute. reflexivity.
  - set_solver.
Defined.

Lemma resolveAbsoluteUrl_slash_insensitive_witness :
  resolveAbsoluteUrl
    (mkContext None
       (Some (mkRequest (Some ("/" +:+ "echo-cookies"))
                (Some (BASE_URL +:+ "/")) None))
       None None)
  = BASE_URL +:+ "/" +:+ "echo-cookies".
Proof.
  apply (resolveAbsoluteUrl_slash_insensitive BASE_URL "echo-cookies"
           true true None None None).
  - discriminate.
  - destruct (JsFacts.replaceTrailingSlash_cases BASE_URL) as [E|[_ Hn]];
      [vm_compute in E; discriminate | exact Hn].
  - intros q E. vm_compute in E. discriminate.
  - intros [[t E]|[t E]]; vm_compute in E; discriminate.
Defined.

Lemma resolveAbsoluteUrl_request_base_wins_witness :
  resolveAbsoluteUrl
    (mkContext None
       (Some (mkRequest (Some "/echo-cookies") (Some BASE_URL) None))
       (Some the_client) None)
  = resolveAbsoluteUrl
      (mkContext None
         (Some (mkRequest (Some "/echo-cookies") (Some BASE_URL) None))
         (Some (mkClient (Some (mkClientConfig (Some "https://other.example")))
                  None))
         None).
Proof.
  apply (resolveAbsoluteUrl_request_base_wins None
           (mkRequest (Some "/echo-cookies") (Some BASE_URL) None)
           (Some the_client)
           (Some (mkClient (Some (mkClientConfig (Some "https://other.example")))
                    None))
           None BASE_URL).
  - reflexivity.
  - discriminate.
Defined.

Lemma resolveAbsoluteUrl_without_request_url_witness :
  url_unset no_request_context /\
  requestUrlOf no_request_context = EmptyString /\
  resolveAbsoluteUrl no_request_context =
  if Js.truthy (baseURLOf no_request_context)
  then Js.replaceTrailingSlash (baseURLOf no_request_context) +:+ "/"
  else EmptyString.
Proof.
  split; [left; reflexivity|]. split; [reflexivity|].
  apply (resolveAbsoluteUrl_without_request_url no_request_context).
  - left. reflexivity.
  - reflexivity.
Defined.

Example no_request_url_resolves_to_base_root :
  resolveAbsoluteUrl no_request_context = "http://localhost:4203/".
Proof. reflexivity. Qed.

Lemma cookieJarPlugin_then_onAttach_witness :
  exists w' p,
    cookieJarPlugin (mkOptions (Some the_jar)) (world_with jar_store)
      = (w', Ok p) /\
    plugin_name p = "cookie-jar" /\
    console w' = console (world_with jar_store) /\
    (forall l, is_Some (heap (world_with jar_store) !! l) ->
               heap w' !! l = heap (world_with jar_store) !! l) /\
    client_jar (onAttach p the_client) = Some (plugin_jar p) /\
    client_config (onAttach p the_client) = client_config the_client /\
    is_Some (heap w' !! plugin_jar p) /\
    (opt_jar (mkOptions (Some the_jar)) = None ->
     heap (world_with jar_store) !! plugin_jar p = None /\
     heap w' !! plugin_jar p = Some newCookieJar).
Proof.
  apply (cookieJarPlugin_then_onAttach (mkOptions (Some the_jar))
           (world_with jar_store) the_client).
  intros l E. inversion E. subst l. exists jar_store. reflexivity.
Defined.

Import TestRunner.

Lemma runAllTests_exit_code_witness :
  Forall clean passing_runs /\ exitCode (runAllTests passing_runs) = 0%Z.
Proof.
  assert (Hc : Forall clean passing_runs).
  { repeat constructor. }
  split; [exact Hc|].
  apply (proj2 (proj1 (TestRunnerFacts.runAllTests_exit_code passing_runs)) Hc).
Defined.

(** One failure and one crash: two failed suites, one failed test in the
    overall counters, two in the rows, exit code 1. *)
Example sample_run_bookkeeping :
  let o := runAllTests sample_runs in
  (totalSuites o, passedSuites o, failedSuites o) = (3, 1, 2) /\
  (totalTests o, passedTests o, failedTests o) = (12, 11, 1) /\
  sum_list (sr_failed <$> suiteResults o) = 2 /\
  sr_status <$> suiteResults o = ["PASSED"; "FAILED"; "ERROR"] /\
  exitCode o = 1%Z.
Proof. vm_compute. repeat split. Qed.

End MoreScenarioFacts.
